(** * c2clat: inter-core one-way data latency

    A shallow embedding of [c2clat.cpp] and the properties of its
    command line, core enumeration, latency matrix and table output.

    Conventions of the embedding:
    - C++ [int], [size_t] and [std::chrono::nanoseconds::rep] values are
      integers in [Z]. Every index the program computes stays below
      [CPU_SETSIZE + 2] and every value of [std::stoi] is range checked, so no
      arithmetic of the program wraps; [/] on durations is [Z.quot]
      (truncation, as in C++).
    - [std::map<std::pair<int,int>, nanoseconds>] is a [gmap (Z * Z) Z].
    - What the operating system and the C library decide (the affinity
      query, pinning, the steady clock, the POSIXLY_CORRECT mode of getopt)
      is an explicit input of [main], gathered in the record [os].
    - The two spinning threads of one measurement are not modelled; what the
      program observes of them is the pair of clock readings around each
      batch of 100 handshakes, and these come from the clock of [os]. A run
      in which a handshake never completes spins forever; the embedding
      describes the runs whose handshakes complete. *)

From Stdlib Require Import ZArith Ascii String List Lia Sorting.Sorted.
From stdpp Require Import base list gmap strings pretty.

Open Scope Z_scope.

(** ** Platform: <sched.h> *)

Module Sched.

(** glibc's [CPU_SETSIZE]: the number of CPUs a [cpu_set_t] holds. The
    addressable core indices are [0 .. CPU_SETSIZE - 1]. *)
Definition CPU_SETSIZE : Z := 1024.

(** A [cpu_set_t] is a bit mask; bit [c] stands for core [c]. *)
Definition cpu_set_t : Type := Z.

Definition CPU_ZERO : cpu_set_t := 0.

(** [CPU_SET] and [CPU_ISSET] check the index against the size of the set
    (the index is converted to [size_t], so a negative one is out of range). *)
Definition CPU_SET (cpu : Z) (set : cpu_set_t) : cpu_set_t :=
  if bool_decide (0 ≤ cpu < CPU_SETSIZE) then Z.lor set (Z.shiftl 1 cpu) else set.

Definition CPU_ISSET (cpu : Z) (set : cpu_set_t) : bool :=
  bool_decide (0 ≤ cpu < CPU_SETSIZE) && Z.testbit set cpu.

(** The mask holding exactly the cores of a list. *)
Definition cpu_set_of (cores : list Z) : cpu_set_t :=
  foldr CPU_SET CPU_ZERO cores.

End Sched.
Export Sched.

(** ** Core enumeration (c2clat.cpp, "enumerate available CPUs") *)

(** [for (int i = begin_core; i <= end_core; ++i)
       if (CPU_ISSET(i, &set)) cpus.push_back(i);] *)
Definition enumerate (set : cpu_set_t) (begin_core end_core : Z) : list Z :=
  foldl (fun cpus i => if CPU_ISSET i set then cpus ++ [i] else cpus)
        [] (seqZ begin_core (end_core - begin_core + 1)).

(** ** Text *)

Module Text.

(** The newline and the double quote. *)
Definition nl : string := String "010"%char EmptyString.
Definition dq : string := String "034"%char EmptyString.
(** The copyright sign, U+00A9, in UTF-8. *)
Definition copyright : string := String "194"%char (String "169"%char EmptyString).

Fixpoint spaces (n : nat) : string :=
  match n with
  | O => EmptyString
  | S n => String " "%char (spaces n)
  end.

(** [std::setw(n)] before one insertion: the text is right-justified in a
    field of [n] characters, filled with spaces, and never truncated. *)
Definition setw (n : nat) (s : string) : string :=
  spaces (n - String.length s) +:+ s.

(** [operator<<] of an integer: its decimal digits, [-] before a negative. *)
Definition show (z : Z) : string := pretty z.

(** The lines of a text: the pieces between its newline characters. *)
Fixpoint lines_go (cur : string) (s : string) : list string :=
  match s with
  | EmptyString => if decide (cur = EmptyString) then [] else [String.rev cur]
  | String c s' =>
      if decide (c = "010"%char) then String.rev cur :: lines_go EmptyString s'
      else lines_go (String c cur) s'
  end.
Definition lines : string → list string := lines_go EmptyString.

End Text.
Export Text.

(** ** [std::stoi] *)

Module Stoi.

Inductive exception : Type :=
| invalid_argument
| out_of_range.

Definition INT_MIN : Z := -2147483648.
Definition INT_MAX : Z := 2147483647.

(** [isspace] in the C locale: space, and tab to carriage return. *)
Definition isspace (c : ascii) : bool :=
  let n := Z.of_nat (nat_of_ascii c) in (n =? 32) || ((9 <=? n) && (n <=? 13)).

Definition digit (c : ascii) : option Z :=
  let n := Z.of_nat (nat_of_ascii c) in
  if (48 <=? n) && (n <=? 57) then Some (n - 48) else None.

Fixpoint skip_spaces (s : string) : string :=
  match s with
  | String c s' => if isspace c then skip_spaces s' else s
  | EmptyString => s
  end.

(** The value of the longest prefix of decimal digits; [None] when the
    text does not start with a digit. *)
Fixpoint digits (acc : option Z) (s : string) : option Z :=
  match s with
  | String c s' =>
      match digit c with
      | Some d => digits (Some (10 * default 0 acc + d)) s'
      | None => acc
      end
  | EmptyString => acc
  end.

(** [std::stoi(s)]: [strtol] in base 10 (leading white space, an optional
    sign, then digits; what follows the digits is ignored), throwing
    [std::invalid_argument] when no digit was read and [std::out_of_range]
    when the value does not fit an [int]. *)
Definition stoi (s : string) : exception + Z :=
  let s := skip_spaces s in
  let '(neg, s) :=
    match s with
    | String "-"%char s' => (true, s')
    | String "+"%char s' => (false, s')
    | _ => (false, s)
    end in
  match digits None s with
  | None => inl invalid_argument
  | Some v =>
      let v := if neg : bool then - v else v in
      if (INT_MIN <=? v) && (v <=? INT_MAX) then inr v else inl out_of_range
  end.

End Stoi.
Export Stoi.

(** ** [getopt] *)

Module Getopt.

(** What one call of [getopt] returns before it returns -1: an option
    character of the option string with [optarg] (the empty text stands for
    the unset [optarg] of a flag), or ['?'] for a character that is not in
    the option string or for an option whose argument is missing. *)
Inductive getopt_result : Type :=
| opt (c : ascii) (optarg : string)
| opt_error.

(** Looks [c] up in the option string: [Some true] when it is followed by
    a colon (the option takes an argument). Optional arguments, written
    with two colons, do not occur in the option string of c2clat. *)
Fixpoint has_arg (optstring : string) (c : ascii) : option bool :=
  match optstring with
  | EmptyString => None
  | String o rest =>
      if decide (o = c) then
        Some (match rest with String ":"%char _ => true | _ => false end)
      else has_arg rest c
  end.

(** The options of one argument [-xyz...] after its dash. The second
    component is an option that ends the argument and takes the next
    element of [argv] as its [optarg]. *)
Fixpoint cluster (optstring : string) (s : string) : list getopt_result * option ascii :=
  match s with
  | EmptyString => ([], None)
  | String c s' =>
      match (if decide (c = ":"%char) then None else has_arg optstring c) with
      | None => let '(rs, p) := cluster optstring s' in (opt_error :: rs, p)
      | Some false => let '(rs, p) := cluster optstring s' in (opt c EmptyString :: rs, p)
      | Some true =>
          match s' with
          | EmptyString => ([], Some c)
          | _ => ([opt c s'], None)
          end
      end
  end.

(** The option characters of an argument: what follows the dash of an
    argument that starts with a dash and is longer than it. *)
Definition option_characters (a : string) : option string :=
  match a with
  | String c (String c' s) =>
      if decide (c = "-"%char) then Some (String c' s) else None
  | _ => None
  end.

(** All the results of the successive calls [getopt(argc, argv, optstring)]
    up to the call that returns -1, and whether [optind != argc] after it.
    [args] is [argv] without the program name. GNU getopt permutes [argv]: it
    skips the arguments that are not options and moves them to the end, so
    [optind != argc] when there was one; under POSIXLY_CORRECT it stops at
    the first of them. The argument [--] ends the options. *)
Fixpoint getopt_all (posixly_correct : bool) (optstring : string)
    (pending : option ascii) (args : list string) : list getopt_result * bool :=
  match args with
  | [] =>
      match pending with
      | Some _ => ([opt_error], false)
      | None => ([], false)
      end
  | a :: args' =>
      match pending with
      | Some c =>
          let '(rs, rest) := getopt_all posixly_correct optstring None args' in
          (opt c a :: rs, rest)
      | None =>
          if decide (a = "--") then ([], bool_decide (args' ≠ []))
          else
            match option_characters a with
            | Some s =>
                let '(rs1, p) := cluster optstring s in
                let '(rs2, rest) := getopt_all posixly_correct optstring p args' in
                (rs1 ++ rs2, rest)
            | None =>
                if posixly_correct then ([], true)
                else
                  let '(rs, _) := getopt_all posixly_correct optstring None args' in
                  (rs, true)
            end
      end
  end.

Definition getopt (posixly_correct : bool) (optstring : string) (args : list string) :
    list getopt_result * bool :=
  getopt_all posixly_correct optstring None args.

End Getopt.
Export Getopt.

(** ** The command line of c2clat *)

Record options : Type := Options {
  nsamples : Z;
  begin_core : Z;
  end_core : Z;
  plot : bool
}.

(** [int nsamples = 1000; int begin_core = 0; int end_core = CPU_SETSIZE;
     bool plot = false;] *)
Definition default_options : options :=
  {| nsamples := 1000; begin_core := 0; end_core := CPU_SETSIZE; plot := false |}.

(** How the option loop leaves: it falls through to the rest of [main],
    jumps to [usage], or [std::stoi] throws. *)
Inductive parse_result : Type :=
| parsed (o : options)
| usage
| thrown (e : exception).

(** The [switch (opt)] of the option loop, on one result of [getopt]. *)
Definition handle_opt (o : options) (r : getopt_result) : parse_result :=
  match r with
  | opt "p"%char _ =>
      parsed {| nsamples := nsamples o; begin_core := begin_core o;
                end_core := end_core o; plot := true |}
  | opt "s"%char optarg =>
      match stoi optarg with
      | inr v => parsed {| nsamples := v; begin_core := begin_core o;
                           end_core := end_core o; plot := plot o |}
      | inl e => thrown e
      end
  | opt "b"%char optarg =>
      match stoi optarg with
      | inr v => parsed {| nsamples := nsamples o; begin_core := Z.max v 0;
                           end_core := end_core o; plot := plot o |}
      | inl e => thrown e
      end
  | opt "e"%char optarg =>
      match stoi optarg with
      | inr v => parsed {| nsamples := nsamples o; begin_core := begin_core o;
                           end_core := Z.min v CPU_SETSIZE; plot := plot o |}
      | inl e => thrown e
      end
  | _ => usage
  end.

(** [while ((opt = getopt(argc, argv, "b:e:ps:")) != -1) switch (opt) ...] *)
Fixpoint option_loop (o : options) (rs : list getopt_result) : parse_result :=
  match rs with
  | [] => parsed o
  | r :: rs' =>
      match handle_opt o r with
      | parsed o' => option_loop o' rs'
      | stop => stop
      end
  end.

Definition optstring : string := "b:e:ps:".

(** The option loop followed by [if (optind != argc) usage]. *)
Definition parse_args (posixly_correct : bool) (args : list string) : parse_result :=
  let '(rs, rest) := getopt posixly_correct optstring args in
  match option_loop default_options rs with
  | parsed o => if rest : bool then usage else parsed o
  | stop => stop
  end.

Definition usage_text : string :=
  "c2clat 1.0.1 " +:+ copyright +:+ " 2020 Erik Rigtorp <erik@rigtorp.se>" +:+ nl +:+
  "usage: c2clat [-p] [-s number_of_samples] [-b begin_core] [-e end_core]" +:+ nl +:+
  nl +:+ "Plot results using gnuplot:" +:+ nl +:+
  "c2clat -p | gnuplot -p" +:+ nl.

(** ** The operating system *)

(** What the run takes from its environment. [sched_getaffinity] is the
    permitted-core mask of the process, or the text of [strerror(errno)]
    when the query fails; [sched_setaffinity set] is [None] when the calling
    thread can be pinned to [set] and the error text otherwise;
    [steady_clock_now k] is what the [k]-th call of
    [std::chrono::steady_clock::now()] returns, in nanoseconds. *)
Record os : Type := OS {
  POSIXLY_CORRECT : bool;
  sched_getaffinity : string + cpu_set_t;
  sched_setaffinity : cpu_set_t → option string;
  steady_clock_now : nat → Z
}.

(** [perror(s)] *)
Definition perror (s err : string) : string := s +:+ ": " +:+ err +:+ nl.

(** A step that may end the process by [perror(...); exit(1)]: [inl] holds
    what [perror] wrote. *)
Definition fatal (A : Type) : Type := string + A.

Definition pinThread (o : os) (cpu : Z) : fatal unit :=
  match sched_setaffinity o (CPU_SET cpu CPU_ZERO) with
  | Some err => inl (perror "sched_setaffinity" err)
  | None => inr tt
  end.

Fixpoint for_each {S A : Type} (body : A → S → fatal S) (l : list A) (st : S) : fatal S :=
  match l with
  | [] => inr st
  | x :: l' =>
      match body x st with
      | inl e => inl e
      | inr st' => for_each body l' st'
      end
  end.

(** ** The pairwise prober and the latency matrix *)

Abbreviation matrix := (gmap (Z * Z) Z).

(** [std::chrono::nanoseconds::max()] *)
Definition nanoseconds_max : Z := 9223372036854775807.

(** The controlling thread's state while it measures: how many times the
    clock was read, and [data]. *)
Record probe_state : Type := ProbeState {
  ticks : nat;
  data : matrix
}.

(** One repetition: [ts1 = now()], the batch of 100 handshakes, [ts2 = now()],
    [rtt = std::min(rtt, ts2 - ts1)]. *)
Definition sample (o : os) (st : nat * Z) (m : Z) : nat * Z :=
  let '(k, rtt) := st in
  let ts1 := steady_clock_now o k in
  let ts2 := steady_clock_now o (S k) in
  (S (S k), Z.min rtt (ts2 - ts1)).

(** The body of the two loops over [i] and [j]: the responder pins itself to
    [cpus[i]], the controlling thread to [cpus[j]], [rtt] becomes the least
    of [nsamples] samples and [rtt / 2 / 100] is stored under [{i, j}] and
    [{j, i}]. The two threads pin themselves without synchronisation. When
    one of the two cores cannot be pinned, the message is the one of that
    core. When neither can, the two calls of [perror] race and the error
    stream may hold either message or both: [probe] keeps the message of the
    responder alone, so the text of the error is that of the program only
    when at most one of the two cores cannot be pinned. *)
Definition probe (o : os) (nsamples : Z) (cpus : list Z) (i j : Z)
    (st : probe_state) : fatal probe_state :=
  match pinThread o (cpus !!! Z.to_nat i) with
  | inl e => inl e
  | inr _ =>
      match pinThread o (cpus !!! Z.to_nat j) with
      | inl e => inl e
      | inr _ =>
          let '(k, rtt) :=
            foldl (sample o) (ticks st, nanoseconds_max) (seqZ 0 nsamples) in
          inr {| ticks := k;
                 data := <[(j, i) := Z.quot (Z.quot rtt 2) 100]>
                           (<[(i, j) := Z.quot (Z.quot rtt 2) 100]> (data st)) |}
      end
  end.

(** The body of the loops at the pair of positions [p]. *)
Definition probe_pair (o : os) (nsamples : Z) (cpus : list Z) (p : Z * Z) :
    probe_state → fatal probe_state :=
  probe o nsamples cpus p.1 p.2.

(** [for (size_t i = 0; i < cpus.size(); ++i)
       for (size_t j = i + 1; j < cpus.size(); ++j) ...] *)
Definition measure (o : os) (nsamples : Z) (cpus : list Z) : fatal probe_state :=
  let n := Z.of_nat (length cpus) in
  for_each
    (λ i, for_each (λ j, probe o nsamples cpus i j) (seqZ (i + 1) (n - (i + 1))))
    (seqZ 0 n)
    {| ticks := 0; data := ∅ |}.

(** ** The table *)

(** [data[{i, j}]]: [std::map::operator[]] inserts a value-initialised
    duration, zero, under a key that is not in the map. *)
Definition subscript (data : matrix) (key : Z * Z) : Z * matrix :=
  match data !! key with
  | Some v => (v, data)
  | None => (0, <[key := 0]> data)
  end.

(** [std::cout << " " << std::setw(4) << data[{i, j}].count();] *)
Definition print_cell (i j : Z) (st : string * matrix) : string * matrix :=
  let '(out, data) := st in
  let '(v, data) := subscript data (i, j) in
  (out +:+ " " +:+ setw 4 (show v), data).

Definition print_header (cpus : list Z) (out : string) : string :=
  let out := out +:+ setw 4 "CPU" in
  let out :=
    foldl (λ out i, out +:+ " " +:+ setw 4 (show (cpus !!! Z.to_nat i)))
          out (seqZ 0 (Z.of_nat (length cpus))) in
  out +:+ nl.

Definition print_row (cpus : list Z) (st : string * matrix) (i : Z) : string * matrix :=
  let '(out, data) := st in
  let out := out +:+ setw 4 (show (cpus !!! Z.to_nat i)) in
  let '(out, data) :=
    foldl (λ st j, print_cell i j st) (out, data) (seqZ 0 (Z.of_nat (length cpus))) in
  (out +:+ nl, data).

Definition print_table (cpus : list Z) (st : string * matrix) : string * matrix :=
  let '(out, data) := st in
  foldl (print_row cpus) (print_header cpus out, data) (seqZ 0 (Z.of_nat (length cpus))).

(** The texts [main] writes around the table when [plot] is set. *)
Definition set_title : string :=
  "set title " +:+ dq +:+ "Inter-core one-way data latency between CPU cores" +:+ dq +:+ nl.
Definition set_xlabel : string := "set xlabel " +:+ dq +:+ "CPU" +:+ dq +:+ nl.
Definition set_ylabel : string := "set ylabel " +:+ dq +:+ "CPU" +:+ dq +:+ nl.
Definition set_cblabel : string := "set cblabel " +:+ dq +:+ "Latency (ns)" +:+ dq +:+ nl.
Definition data_begin : string := "$data << EOD" +:+ nl.
Definition data_end : string := "EOD" +:+ nl.
Definition plot_command : string :=
  "plot '$data' matrix rowheaders columnheaders using 2:1:3 with image" +:+ nl.

(** ** [main] *)

(** How the process ends: [exit(code)] or [return code] from [main], or
    [std::terminate] on an exception that nothing catches. *)
Inductive status : Type :=
| exited (code : Z)
| terminated (e : exception).

(** What one run leaves: how it ended and what [main] itself wrote to
    [std::cout] and to the error stream (the diagnostic of [getopt] for a
    rejected flag and the message of the terminate handler are written by the
    library, not by [main], and are not part of [cerr]). *)
Record run : Type := Run {
  ended : status;
  cout : string;
  cerr : string
}.

(** [main], on the arguments [argv[1]], ..., [argv[argc - 1]]. *)
Definition main (o : os) (args : list string) : run :=
  match parse_args (POSIXLY_CORRECT o) args with
  | thrown e => {| ended := terminated e; cout := EmptyString; cerr := EmptyString |}
  | usage => {| ended := exited 1; cout := EmptyString; cerr := usage_text |}
  | parsed opts =>
      match sched_getaffinity o with
      | inl err =>
          {| ended := exited 1; cout := EmptyString;
             cerr := perror "sched_getaffinity" err |}
      | inr set =>
          let cpus := enumerate set (begin_core opts) (end_core opts) in
          match measure o (nsamples opts) cpus with
          | inl e => {| ended := exited 1; cout := EmptyString; cerr := e |}
          | inr st =>
              let out :=
                if plot opts
                then set_title +:+ set_xlabel +:+ set_ylabel +:+ set_cblabel
                     +:+ data_begin
                else EmptyString in
              let '(out, _) := print_table cpus (out, data st) in
              let out :=
                if plot opts then out +:+ data_end +:+ plot_command else out in
              {| ended := exited 0; cout := out; cerr := EmptyString |}
          end
      end
  end.

(** ** Command lines, as they are described *)

(** The exception [std::stoi] throws on the value of a [-s], [-b] or [-e]
    option, if it throws. *)
Definition throws (r : getopt_result) : option exception :=
  match r with
  | opt c optarg =>
      if bool_decide (c ∈ ["s"; "b"; "e"]%char) then
        match stoi optarg with
        | inl e => Some e
        | inr _ => None
        end
      else None
  | opt_error => None
  end.

(** An option of c2clat whose value, if it takes one, is an integer. *)
Definition accepted (r : getopt_result) : bool :=
  match r with
  | opt c _ => bool_decide (c ∈ ["p"; "s"; "b"; "e"]%char) && bool_decide (throws r = None)
  | opt_error => false
  end.

(** A result of [getopt] for the option string of c2clat: ['?'] or one of
    its four options. *)
Definition recognized (r : getopt_result) : Prop :=
  match r with
  | opt c _ => c ∈ ["p"; "s"; "b"; "e"]%char
  | opt_error => True
  end.

(** The command line has a flag that [getopt] rejects (it is not in the
    option string, or its argument is missing), or an argument that is not
    an option. *)
Definition invalid_usage (posixly_correct : bool) (args : list string) : Prop :=
  opt_error ∈ (getopt posixly_correct optstring args).1
  ∨ (getopt posixly_correct optstring args).2 = true.

(** The command line has a [-s], [-b] or [-e] option whose value
    [std::stoi] does not parse. *)
Definition unparseable_value (posixly_correct : bool) (args : list string) : Prop :=
  ∃ r e, r ∈ (getopt posixly_correct optstring args).1 ∧ throws r = Some e.

(** The run that prints the usage text and exits with code 1. *)
Definition usage_run : run :=
  {| ended := exited 1; cout := EmptyString; cerr := usage_text |}.

(** The lines that stand before the data block in plot mode. *)
Definition plot_directives : list string :=
  [set_title; set_xlabel; set_ylabel; set_cblabel].

(** A text that is one line: its last character is its only newline. *)
Fixpoint one_line (s : string) : bool :=
  match s with
  | EmptyString => false
  | String c EmptyString => bool_decide (c = "010"%char)
  | String c s' => negb (bool_decide (c = "010"%char)) && one_line s'
  end.

(** The output starts with three lines and then the line that opens the
    data block. *)
Definition three_directives_then_data (out : string) : Prop :=
  ∃ d1 d2 d3 rest, lines out = d1 :: d2 :: d3 :: "$data << EOD" :: rest.

(** The greatest core index a [cpu_set_t] addresses. *)
Definition max_addressable_core : Z := CPU_SETSIZE - 1.

(** The range is capped at the greatest addressable core index: its upper
    bound is not beyond it, and neither is any index the enumeration
    tests. *)
Definition capped_at_addressable (opts : options) : Prop :=
  end_core opts ≤ max_addressable_core
  ∧ ∀ i, i ∈ seqZ (begin_core opts) (end_core opts - begin_core opts + 1) →
         i ≤ max_addressable_core.

(** ** The table and the matrix, as they are described *)

Definition join (l : list string) : string := foldr String.append EmptyString l.

(** The latency the table shows for row [i] and column [j]: the entry of the
    matrix, and zero where it has none. *)
Definition latency (data : matrix) (i j : Z) : Z := default 0 (data !! (i, j)).

(** A value right-justified in a field of four characters after one space. *)
Definition column (s : string) : string := " " +:+ setw 4 s.

(** The header row: CPU, then every enumerated core id in its column. *)
Definition header_row (cpus : list Z) : string :=
  setw 4 "CPU" +:+ join (map (λ c, column (show c)) cpus) +:+ nl.

(** The row of the [i]-th enumerated core [c]: its id, then its latency to
    every enumerated core, in the order of the columns. *)
Definition data_row (cpus : list Z) (data : matrix) (i : nat) (c : Z) : string :=
  setw 4 (show c)
  +:+ join (map (λ j, column (show (latency data (Z.of_nat i) (Z.of_nat j))))
                (seq 0 (length cpus)))
  +:+ nl.

Definition table (cpus : list Z) (data : matrix) : string :=
  header_row cpus +:+ join (imap (data_row cpus data) cpus).

(** The keys the table looks up, row by row. *)
Definition cells (n : Z) : list (Z * Z) :=
  i ← seqZ 0 n; (λ j, (i, j)) <$> seqZ 0 n.

(** The matrix after the keys of a list were looked up with [data[key]]. *)
Definition touch (keys : list (Z * Z)) (data : matrix) : matrix :=
  foldl (λ d key, (subscript d key).2) data keys.

(** The pairs of positions the two measuring loops visit, in their order. *)
Definition pairs (n : Z) : list (Z * Z) :=
  i ← seqZ 0 n; (λ j, (i, j)) <$> seqZ (i + 1) (n - (i + 1)).

(** The durations [ts2 - ts1] of [nsamples] repetitions that start at the
    [k]-th reading of the clock. *)
Definition durations (o : os) (k : nat) (nsamples : Z) : list Z :=
  (λ m, steady_clock_now o (k + 2 * m + 1)%nat - steady_clock_now o (k + 2 * m)%nat)
    <$> seq 0 (Z.to_nat nsamples).

(** The least round trip of these repetitions, as [rtt] holds it after them,
    and the one-way latency the program stores for it. *)
Definition round_trip (o : os) (k : nat) (nsamples : Z) : Z :=
  foldl Z.min nanoseconds_max (durations o k nsamples).

Definition one_way (rtt : Z) : Z := Z.quot (Z.quot rtt 2) 100.

(** Every core of the list can be pinned. *)
Definition pinnable (o : os) (cpus : list Z) : Prop :=
  ∀ c, c ∈ cpus → sched_setaffinity o (CPU_SET c CPU_ZERO) = None.

(** The matrix with its entries under pairs of core ids: every two distinct
    enumerated cores have both directed entries, equal and not negative. *)
Definition mirrored_by_core_id (cpus : list Z) (data : matrix) : Prop :=
  ∀ a b, a ∈ cpus → b ∈ cpus → a ≠ b →
    ∃ v, data !! (a, b) = Some v ∧ data !! (b, a) = Some v ∧ 0 ≤ v.

(** The result of every two enumerated cores is under both pairs of their
    core ids. *)
Definition keyed_by_core_id (cpus : list Z) (data : matrix) : Prop :=
  ∀ a b, a ∈ cpus → b ∈ cpus → a < b →
    is_Some (data !! (a, b)) ∧ is_Some (data !! (b, a)).

(** [m] is the minimum of the list [l]. *)
Definition minimum_of (l : list Z) (m : Z) : Prop :=
  m ∈ l ∧ ∀ x, x ∈ l → m ≤ x.

(** The steady clock never goes back, and its readings are non-negative
    64-bit counts of nanoseconds. *)
Definition steady (o : os) : Prop :=
  ∀ k, 0 ≤ steady_clock_now o k ≤ steady_clock_now o (S k)
       ∧ steady_clock_now o (S k) ≤ nanoseconds_max.

(** ** Example machines *)

Module Examples.

(** A clock that advances 700 ns from one reading to the next and stops
    after 4096 readings. *)
Definition clock (k : nat) : Z := 700 * Z.of_nat (Nat.min k 4096).

(** A machine that permits the cores 2, 4 and 7 and pins to each of them. *)
Definition machine : os :=
  {| POSIXLY_CORRECT := false;
     sched_getaffinity := inr (cpu_set_of [2; 4; 7]);
     sched_setaffinity := λ _, None;
     steady_clock_now := clock |}.

(** The same machine, where the affinity query fails. *)
Definition machine_without_affinity : os :=
  {| POSIXLY_CORRECT := false;
     sched_getaffinity := inl "Operation not permitted";
     sched_setaffinity := λ _, None;
     steady_clock_now := clock |}.

End Examples.

(** ** The handshake of one measurement *)

Module Handshake.

(** Where the controlling thread stands in the body of the loops over [i]
    and [j], from [pinThread(cpus[j])] to [t.join()]. Each atomic load or
    store, each reading of the clock and each call of the operating system
    is one position; [m] and [n] are the loop variables. *)
Inductive controller : Type :=
| c_pin
| c_reset_seq2 (m : Z)
| c_reset_seq1 (m : Z)
| c_ts1 (m : Z)
| c_store (m n : Z)
| c_spin (m n : Z)
| c_ts2 (m : Z)
| c_join
| c_done.

(** Where the responder thread stands in its lambda. *)
Inductive responder : Type :=
| r_pin
| r_spin (m n : Z)
| r_store (m n : Z)
| r_done.

(** The two atomic cells, the two threads, the locals [ts1] and [rtt] of the
    controlling thread, the number of readings of the clock, and what
    [perror] wrote if a thread has called [exit(1)]. *)
Record state : Type := State {
  seq1 : Z;
  seq2 : Z;
  ctl : controller;
  rsp : responder;
  calls : nat;
  ts1 : Z;
  rtt : Z;
  exit_message : option string
}.

(** [for (int m = ...; m < nsamples; ++m)] and [for (int n = ...; n < 100; ++n)]
    of the controlling thread: where it goes with these values of [m], [n]. *)
Definition ctl_outer (nsamples m : Z) : controller :=
  if m <? nsamples then c_reset_seq2 m else c_join.

Definition ctl_inner (m n : Z) : controller :=
  if n <? 100 then c_store m n else c_ts2 m.

(** The same for the two loops of the responder. *)
Definition rsp_outer (nsamples m : Z) : responder :=
  if m <? nsamples then r_spin m 0 else r_done.

Definition rsp_inner (nsamples m n : Z) : responder :=
  if n <? 100 then r_spin m n else rsp_outer nsamples (m + 1).

(** The state after [seq1], [seq2] and the thread [t] are constructed and
    [rtt] is set to the maximum; [k] readings of the clock were taken
    before. [ts1] is not set yet. *)
Definition init (k : nat) : state :=
  {| seq1 := -1; seq2 := -1; ctl := c_pin; rsp := r_pin; calls := k;
     ts1 := 0; rtt := nanoseconds_max; exit_message := None |}.

Definition set_ctl (c : controller) (st : state) : state :=
  {| seq1 := seq1 st; seq2 := seq2 st; ctl := c; rsp := rsp st;
     calls := calls st; ts1 := ts1 st; rtt := rtt st;
     exit_message := exit_message st |}.

Definition set_rsp (r : responder) (st : state) : state :=
  {| seq1 := seq1 st; seq2 := seq2 st; ctl := ctl st; rsp := r;
     calls := calls st; ts1 := ts1 st; rtt := rtt st;
     exit_message := exit_message st |}.

Definition store_seq1 (v : Z) (st : state) : state :=
  {| seq1 := v; seq2 := seq2 st; ctl := ctl st; rsp := rsp st;
     calls := calls st; ts1 := ts1 st; rtt := rtt st;
     exit_message := exit_message st |}.

Definition store_seq2 (v : Z) (st : state) : state :=
  {| seq1 := seq1 st; seq2 := v; ctl := ctl st; rsp := rsp st;
     calls := calls st; ts1 := ts1 st; rtt := rtt st;
     exit_message := exit_message st |}.

(** [perror(...); exit(1)] in [pinThread]. *)
Definition exit_with (e : string) (st : state) : state :=
  {| seq1 := seq1 st; seq2 := seq2 st; ctl := ctl st; rsp := rsp st;
     calls := calls st; ts1 := ts1 st; rtt := rtt st;
     exit_message := Some e |}.

(** One step of the controlling thread, pinned to the core [cj]. A load in
    the spin loop that does not see [n], and [join] while the responder
    runs, leave the state as it is. *)
Definition step_controller (o : os) (nsamples cj : Z) (st : state) : state :=
  match ctl st with
  | c_pin =>
      match pinThread o cj with
      | inl e => exit_with e st
      | inr _ => set_ctl (ctl_outer nsamples 0) st
      end
  | c_reset_seq2 m => set_ctl (c_reset_seq1 m) (store_seq2 (-1) st)
  | c_reset_seq1 m => set_ctl (c_ts1 m) (store_seq1 (-1) st)
  | c_ts1 m =>
      {| seq1 := seq1 st; seq2 := seq2 st; ctl := ctl_inner m 0; rsp := rsp st;
         calls := S (calls st); ts1 := steady_clock_now o (calls st);
         rtt := rtt st; exit_message := exit_message st |}
  | c_store m n => set_ctl (c_spin m n) (store_seq1 n st)
  | c_spin m n =>
      if seq2 st =? n then set_ctl (ctl_inner m (n + 1)) st else st
  | c_ts2 m =>
      {| seq1 := seq1 st; seq2 := seq2 st; ctl := ctl_outer nsamples (m + 1);
         rsp := rsp st; calls := S (calls st); ts1 := ts1 st;
         rtt := Z.min (rtt st) (steady_clock_now o (calls st) - ts1 st);
         exit_message := exit_message st |}
  | c_join =>
      match rsp st with
      | r_done => set_ctl c_done st
      | _ => st
      end
  | c_done => st
  end.

(** One step of the responder, pinned to the core [ci]. *)
Definition step_responder (o : os) (nsamples ci : Z) (st : state) : state :=
  match rsp st with
  | r_pin =>
      match pinThread o ci with
      | inl e => exit_with e st
      | inr _ => set_rsp (rsp_outer nsamples 0) st
      end
  | r_spin m n => if seq1 st =? n then set_rsp (r_store m n) st else st
  | r_store m n => set_rsp (rsp_inner nsamples m (n + 1)) (store_seq2 n st)
  | r_done => st
  end.

Inductive thread : Type :=
| controlling
| responding.

(** One step of the process: the scheduled thread moves, unless a thread
    has ended the process. *)
Definition step (o : os) (nsamples ci cj : Z) (st : state) (t : thread) : state :=
  match exit_message st with
  | Some _ => st
  | None =>
      match t with
      | controlling => step_controller o nsamples cj st
      | responding => step_responder o nsamples ci st
      end
  end.

(** The state after the threads moved in the order of a schedule. *)
Definition run (o : os) (nsamples ci cj : Z) (k : nat) (schedule : list thread) : state :=
  foldl (step o nsamples ci cj) (init k) schedule.

#[global] Instance controller_eq_dec : EqDecision controller.
Proof. solve_decision. Defined.

#[global] Instance responder_eq_dec : EqDecision responder.
Proof. solve_decision. Defined.

#[global] Instance state_eq_dec : EqDecision state.
Proof. solve_decision. Defined.

(** How many steps of a schedule, taken from the state [st], changed the
    state: the steps other than a load that spins again, a [join] that
    waits, and the steps of a thread or a process that has ended. *)
Fixpoint moves (o : os) (nsamples ci cj : Z) (st : state) (schedule : list thread) : nat :=
  match schedule with
  | [] => 0
  | t :: schedule' =>
      ((if decide (step o nsamples ci cj st t = st) then 0 else 1)
       + moves o nsamples ci cj (step o nsamples ci cj st t) schedule')%nat
  end.

(** The measurement is over: the controlling thread has joined the
    responder, or a thread has ended the process. *)
Definition finished (st : state) : Prop :=
  ctl st = c_done ∨ is_Some (exit_message st).

(** The handshakes the responder has answered when it stands at a position. *)
Definition answered (nsamples : Z) (r : responder) : Z :=
  match r with
  | r_pin => 0
  | r_spin m n => 100 * m + n
  | r_store m n => 100 * m + n
  | r_done => 100 * Z.max nsamples 0
  end.

(** The handshakes the controlling thread has started. *)
Definition started (nsamples : Z) (c : controller) : Z :=
  match c with
  | c_pin => 0
  | c_reset_seq2 m | c_reset_seq1 m | c_ts1 m => 100 * m
  | c_store m n => 100 * m + n
  | c_spin m n => 100 * m + n + 1
  | c_ts2 m => 100 * m + 100
  | c_join | c_done => 100 * Z.max nsamples 0
  end.

(** The steps the two threads have left. *)
Definition remaining_controller (nsamples : Z) (c : controller) : Z :=
  match c with
  | c_pin => 2 + 204 * Z.max nsamples 0
  | c_reset_seq2 m => 1 + 204 * (nsamples - m)
  | c_reset_seq1 m => 204 * (nsamples - m)
  | c_ts1 m => 204 * (nsamples - m) - 1
  | c_store m n => 204 * (nsamples - m) - 2 - 2 * n
  | c_spin m n => 204 * (nsamples - m) - 3 - 2 * n
  | c_ts2 m => 204 * (nsamples - m) - 202
  | c_join => 1
  | c_done => 0
  end.

Definition remaining_responder (nsamples : Z) (r : responder) : Z :=
  match r with
  | r_pin => 1 + 200 * Z.max nsamples 0
  | r_spin m n => 200 * (nsamples - m) - 2 * n
  | r_store m n => 200 * (nsamples - m) - 2 * n - 1
  | r_done => 0
  end.

Definition remaining (nsamples : Z) (st : state) : Z :=
  match exit_message st with
  | Some _ => 0
  | None => remaining_controller nsamples (ctl st) + remaining_responder nsamples (rsp st)
  end.

(** What [seq1] holds when the sample [m] begins. *)
Definition last_seq (m : Z) : Z := if m =? 0 then -1 else 99.

(** What holds in every state the two threads can reach. *)
Definition invariant (o : os) (nsamples ci cj : Z) (k : nat) (st : state) : Prop :=
  (ctl st ≠ c_pin → pinThread o cj = inr tt)
  ∧ (rsp st ≠ r_pin → pinThread o ci = inr tt)
  ∧ (∀ e, exit_message st = Some e → pinThread o ci = inl e ∨ pinThread o cj = inl e)
  ∧ match ctl st with
    | c_pin =>
        seq1 st = -1 ∧ seq2 st = -1
        ∧ (rsp st = r_pin ∨ rsp st = rsp_outer nsamples 0)
        ∧ calls st = k ∧ rtt st = nanoseconds_max
    | c_reset_seq2 m =>
        0 ≤ m < nsamples ∧ seq1 st = last_seq m ∧ seq2 st = last_seq m
        ∧ (rsp st = r_spin m 0 ∨ m = 0 ∧ rsp st = r_pin)
        ∧ calls st = (k + 2 * Z.to_nat m)%nat ∧ rtt st = round_trip o k m
    | c_reset_seq1 m =>
        0 ≤ m < nsamples ∧ seq1 st = last_seq m ∧ seq2 st = -1
        ∧ (rsp st = r_spin m 0 ∨ m = 0 ∧ rsp st = r_pin)
        ∧ calls st = (k + 2 * Z.to_nat m)%nat ∧ rtt st = round_trip o k m
    | c_ts1 m =>
        0 ≤ m < nsamples ∧ seq1 st = -1 ∧ seq2 st = -1
        ∧ (rsp st = r_spin m 0 ∨ m = 0 ∧ rsp st = r_pin)
        ∧ calls st = (k + 2 * Z.to_nat m)%nat ∧ rtt st = round_trip o k m
    | c_store m n =>
        0 ≤ m < nsamples ∧ 0 ≤ n < 100 ∧ seq1 st = n - 1 ∧ seq2 st = n - 1
        ∧ (rsp st = r_spin m n ∨ m = 0 ∧ n = 0 ∧ rsp st = r_pin)
        ∧ calls st = (k + 2 * Z.to_nat m + 1)%nat
        ∧ ts1 st = steady_clock_now o (k + 2 * Z.to_nat m)%nat
        ∧ rtt st = round_trip o k m
    | c_spin m n =>
        0 ≤ m < nsamples ∧ 0 ≤ n < 100 ∧ seq1 st = n
        ∧ (seq2 st = n - 1
           ∧ (rsp st = r_spin m n ∨ rsp st = r_store m n
              ∨ m = 0 ∧ n = 0 ∧ rsp st = r_pin)
           ∨ seq2 st = n ∧ rsp st = rsp_inner nsamples m (n + 1))
        ∧ calls st = (k + 2 * Z.to_nat m + 1)%nat
        ∧ ts1 st = steady_clock_now o (k + 2 * Z.to_nat m)%nat
        ∧ rtt st = round_trip o k m
    | c_ts2 m =>
        0 ≤ m < nsamples ∧ seq1 st = 99 ∧ seq2 st = 99
        ∧ rsp st = rsp_outer nsamples (m + 1)
        ∧ calls st = (k + 2 * Z.to_nat m + 1)%nat
        ∧ ts1 st = steady_clock_now o (k + 2 * Z.to_nat m)%nat
        ∧ rtt st = round_trip o k m
    | c_join =>
        seq1 st = last_seq (Z.max nsamples 0)
        ∧ seq2 st = last_seq (Z.max nsamples 0)
        ∧ (rsp st = r_done ∨ nsamples ≤ 0 ∧ rsp st = r_pin)
        ∧ calls st = (k + 2 * Z.to_nat nsamples)%nat
        ∧ rtt st = round_trip o k nsamples
    | c_done =>
        seq1 st = last_seq (Z.max nsamples 0)
        ∧ seq2 st = last_seq (Z.max nsamples 0)
        ∧ rsp st = r_done
        ∧ calls st = (k + 2 * Z.to_nat nsamples)%nat
        ∧ rtt st = round_trip o k nsamples
    end.

End Handshake.

(** ** A schedule *)

Module Schedules.

(** The two threads move in turn, a thousand times each. *)
Definition round_robin : list Handshake.thread :=
  mjoin (replicate 1000 [Handshake.controlling; Handshake.responding]).

End Schedules.

(** ** The order of the measurements *)

(** The pair [p] comes before the pair [q] in ascending lexical order. *)
Definition lexical (p q : Z * Z) : Prop :=
  p.1 < q.1 ∨ p.1 = q.1 ∧ p.2 < q.2.

(** ** Options and output, as the run has them *)

(** The options after [case 'p': plot = true;]. *)
Definition with_plot (o : options) : options :=
  {| nsamples := nsamples o; begin_core := begin_core o;
     end_core := end_core o; plot := true |}.

(** The variables of the option loop hold values of an [int], the lower
    bound is not negative and the upper bound not above [CPU_SETSIZE]. *)
Definition fits_int (o : options) : Prop :=
  INT_MIN ≤ nsamples o ≤ INT_MAX
  ∧ 0 ≤ begin_core o ≤ INT_MAX
  ∧ INT_MIN ≤ end_core o ≤ CPU_SETSIZE.

(** The machine [o] with the environment variable POSIXLY_CORRECT set or
    unset. *)
Definition with_posixly_correct (b : bool) (o : os) : os :=
  {| POSIXLY_CORRECT := b;
     sched_getaffinity := sched_getaffinity o;
     sched_setaffinity := sched_setaffinity o;
     steady_clock_now := steady_clock_now o |}.

(** The text [main] prints in plot mode around the table [t]. *)
Definition plot_wrapped (t : string) : string :=
  set_title +:+ set_xlabel +:+ set_ylabel +:+ set_cblabel +:+ data_begin
  +:+ t +:+ data_end +:+ plot_command.

(** ** More example machines *)

Module MoreExamples.

(** The machine of the examples, where the core 4 cannot be pinned. *)
Definition machine_without_core_4 : os :=
  {| POSIXLY_CORRECT := false;
     sched_getaffinity := inr (cpu_set_of [2; 4; 7]);
     sched_setaffinity :=
       λ set, if CPU_ISSET 4 set then Some "Invalid argument" else None;
     steady_clock_now := Examples.clock |}.

End MoreExamples.

(** ** Theorems *)

Section Enumerator.

Implicit Types (set : cpu_set_t) (cpus : list Z).

Lemma push_back_loop set (ids : list Z) cpus :
  foldl (fun cpus i => if CPU_ISSET i set then cpus ++ [i] else cpus) cpus ids
  = cpus ++ filter (λ i, CPU_ISSET i set = true) ids.
Proof.
  revert cpus; induction ids as [|i ids IH]; intros cpus; simpl.
  - by rewrite app_nil_r.
  - rewrite IH. destruct (CPU_ISSET i set) eqn:E.
    + rewrite filter_cons_True by done. by rewrite <- app_assoc.
    + rewrite filter_cons_False by congruence. done.
Qed.

Lemma enumerate_filter set b e :
  enumerate set b e = filter (λ i, CPU_ISSET i set = true) (seqZ b (e - b + 1)).
Proof. unfold enumerate. by rewrite push_back_loop. Qed.

Lemma seqZ_sorted b n : StronglySorted Z.lt (seqZ b n).
Proof.
  destruct (decide (0 ≤ n)) as [Hn|Hn].
  - revert b. pattern n. apply natlike_ind; [| |done].
    + intros b. rewrite seqZ_nil by lia. constructor.
    + intros x Hx IH b. rewrite seqZ_cons by lia.
      constructor.
      * replace (Z.pred (Z.succ x)) with x by lia. apply IH.
      * apply Forall_forall. intros y Hy.
        apply elem_of_seqZ in Hy. lia.
  - rewrite seqZ_nil by lia. constructor.
Qed.

Lemma filter_sorted (P : Z → Prop) `{!∀ x, Decision (P x)} (l : list Z) :
  StronglySorted Z.lt l → StronglySorted Z.lt (filter P l).
Proof.
  induction 1 as [|x l Hs IH Hall]; [constructor|].
  destruct (decide (P x)).
  - rewrite filter_cons_True by done. constructor; [done|].
    apply Forall_forall. intros y Hy.
    apply list_elem_of_filter in Hy as [_ Hy].
    rewrite Forall_forall in Hall. by apply Hall.
  - by rewrite filter_cons_False.
Qed.

Lemma elem_of_enumerate set b e c :
  c ∈ enumerate set b e ↔ CPU_ISSET c set = true ∧ b ≤ c ≤ e.
Proof.
  rewrite enumerate_filter, list_elem_of_filter, elem_of_seqZ.
  split; intros [Hset Hrange]; (split; [exact Hset | lia]).
Qed.

End Enumerator.

(** C2. For every affinity mask and inclusive range [begin_core, end_core] the
    enumerator returns the strictly ascending list of exactly the core ids
    that are set in the mask and lie within the range; the mask {2, 4, 7}
    gives [2; 4; 7] on the range [0, 10] and [7] on the range [5, 10]. *)
Theorem enumerate_exact :
  (∀ (set : cpu_set_t) (begin_core end_core : Z),
      StronglySorted Z.lt (enumerate set begin_core end_core)
      ∧ ∀ c, In c (enumerate set begin_core end_core)
             ↔ CPU_ISSET c set = true ∧ begin_core ≤ c ≤ end_core)
  ∧ enumerate (cpu_set_of [2; 4; 7]) 0 10 = [2; 4; 7]
  ∧ enumerate (cpu_set_of [2; 4; 7]) 5 10 = [7].
Proof.
  split; [|split; vm_compute; reflexivity].
  intros set b e. split.
  - rewrite enumerate_filter. apply filter_sorted, seqZ_sorted.
  - intros c. rewrite <- list_elem_of_In. apply elem_of_enumerate.
Qed.

(** ** Text lemmas *)

Section TextLemmas.

Lemma append_cons (c : ascii) (s1 s2 : string) :
  String c s1 +:+ s2 = String c (s1 +:+ s2).
Proof. reflexivity. Qed.

Lemma append_nil_r (s : string) : s +:+ EmptyString = s.
Proof. induction s as [|c s IH]; [done | by rewrite append_cons, IH]. Qed.

Lemma append_assoc (s1 s2 s3 : string) : (s1 +:+ s2) +:+ s3 = s1 +:+ s2 +:+ s3.
Proof.
  induction s1 as [|c s1 IH]; [done | by rewrite !append_cons, IH].
Qed.

Lemma length_append (s1 s2 : string) :
  String.length (s1 +:+ s2) = (String.length s1 + String.length s2)%nat.
Proof.
  induction s1 as [|c s1 IH]; [done | rewrite append_cons; simpl; by rewrite IH].
Qed.

Lemma length_spaces (n : nat) : String.length (spaces n) = n.
Proof. induction n as [|n IH]; simpl; [done | by rewrite IH]. Qed.

Lemma length_setw (n : nat) (s : string) :
  String.length (setw n s) = Nat.max n (String.length s).
Proof. unfold setw. rewrite length_append, length_spaces. lia. Qed.

Lemma join_nil : join [] = EmptyString.
Proof. reflexivity. Qed.

Lemma join_cons (s : string) (l : list string) : join (s :: l) = s +:+ join l.
Proof. reflexivity. Qed.

(** A loop that appends one piece per element appends their concatenation. *)
Lemma append_loop {A} (f : A → string) (l : list A) (out : string) :
  foldl (λ out x, out +:+ f x) out l = out +:+ join (f <$> l).
Proof.
  unfold join. revert out; induction l as [|x l IH]; intros out; simpl.
  - by rewrite append_nil_r.
  - by rewrite IH, append_assoc.
Qed.

End TextLemmas.

(** ** Loops over positions *)

Section Positions.

Lemma foldl_cons {A B} (f : A → B → A) (a : A) (x : B) (l : list B) :
  foldl f a (x :: l) = foldl f (f a x) l.
Proof. reflexivity. Qed.

Lemma seqZ_of_nat (n : nat) : seqZ 0 (Z.of_nat n) = Z.of_nat <$> seq 0 n.
Proof.
  unfold seqZ. rewrite Nat2Z.id. apply list_fmap_ext. intros _ x _. lia.
Qed.

Lemma positions_lookup (cpus : list Z) :
  (λ i, cpus !!! Z.to_nat i) <$> seqZ 0 (Z.of_nat (length cpus)) = cpus.
Proof.
  rewrite seqZ_of_nat, <- list_fmap_compose.
  apply list_eq. intros i. rewrite list_lookup_fmap.
  destruct (decide (i < length cpus)%nat) as [Hi|Hi].
  - rewrite lookup_seq_lt by done. simpl. rewrite Nat2Z.id.
    destruct (lookup_lt_is_Some_2 cpus i Hi) as [c Hc].
    rewrite Hc. f_equal. by apply list_lookup_total_correct.
  - rewrite lookup_seq_ge by lia. simpl. symmetry. apply lookup_ge_None. lia.
Qed.

End Positions.

(** ** Looking up and printing the matrix *)

Section Table.

Implicit Types (data : matrix) (cpus : list Z) (key : Z * Z) (out : string).

Lemma subscript_value data i j : (subscript data (i, j)).1 = latency data i j.
Proof. unfold subscript, latency. by destruct (data !! (i, j)). Qed.

Lemma subscript_lookup data key k :
  (subscript data key).2 !! k =
    match data !! k with
    | Some v => Some v
    | None => if decide (k = key) then Some 0 else None
    end.
Proof.
  unfold subscript. destruct (data !! key) as [v|] eqn:Hkey; simpl.
  - destruct (data !! k) eqn:Hk; [done|]. case_decide; congruence.
  - destruct (decide (k = key)) as [->|Hne].
    + by rewrite lookup_insert_eq, Hkey.
    + rewrite lookup_insert_ne by done. by destruct (data !! k).
Qed.

Lemma touch_lookup keys data k :
  touch keys data !! k =
    match data !! k with
    | Some v => Some v
    | None => if decide (k ∈ keys) then Some 0 else None
    end.
Proof.
  unfold touch. revert data. induction keys as [|key keys IH]; intros data; simpl.
  - destruct (data !! k); [done|].
    destruct (decide (k ∈ [])) as [H|H]; [by apply elem_of_nil in H|done].
  - rewrite IH, subscript_lookup. destruct (data !! k); [done|].
    destruct (decide (k = key)) as [->|Hne].
    + rewrite decide_True by apply list_elem_of_here. done.
    + destruct (decide (k ∈ keys)) as [Hin|Hin].
      * rewrite decide_True by (by apply list_elem_of_further). done.
      * rewrite decide_False; [done|].
        intros [?|?]%elem_of_cons; congruence.
Qed.

Lemma touch_app keys1 keys2 data :
  touch (keys1 ++ keys2) data = touch keys2 (touch keys1 data).
Proof. unfold touch. apply foldl_app. Qed.

Lemma latency_touch keys data i j :
  latency (touch keys data) i j = latency data i j.
Proof.
  unfold latency. rewrite touch_lookup.
  destruct (data !! (i, j)); [done|]. by case_decide.
Qed.

Lemma print_cell_eq i j out data :
  print_cell i j (out, data)
  = (out +:+ column (show (latency data i j)), touch [(i, j)] data).
Proof.
  unfold print_cell, column, touch. simpl.
  rewrite <- subscript_value. by destruct (subscript data (i, j)).
Qed.

Lemma print_cells i (js : list Z) out data :
  foldl (λ st j, print_cell i j st) (out, data) js
  = (out +:+ join ((λ j, column (show (latency data i j))) <$> js),
     touch ((λ j, (i, j)) <$> js) data).
Proof.
  revert out data. induction js as [|j js IH]; intros out data.
  - by rewrite !fmap_nil, join_nil, append_nil_r.
  - rewrite foldl_cons, print_cell_eq, IH, !fmap_cons, join_cons, append_assoc.
    f_equal. do 3 f_equal. apply list_fmap_ext. intros _ j' _.
    by rewrite latency_touch.
Qed.

Lemma print_header_eq cpus out : print_header cpus out = out +:+ header_row cpus.
Proof.
  unfold print_header, header_row, column.
  rewrite (append_loop (λ i, " " +:+ setw 4 (show (cpus !!! Z.to_nat i)))).
  rewrite !append_assoc. do 3 f_equal.
  rewrite <- (positions_lookup cpus) at 2. by rewrite <- list_fmap_compose.
Qed.

Lemma print_row_eq cpus (i : nat) out data :
  print_row cpus (out, data) (Z.of_nat i)
  = (out +:+ data_row cpus data i (cpus !!! i),
     touch ((λ j, (Z.of_nat i, j)) <$> seqZ 0 (Z.of_nat (length cpus))) data).
Proof.
  unfold print_row, data_row. rewrite print_cells, Nat2Z.id. f_equal.
  rewrite !append_assoc. do 2 f_equal.
  by rewrite seqZ_of_nat, <- list_fmap_compose.
Qed.

Lemma data_row_touch keys cpus data i c :
  data_row cpus (touch keys data) i c = data_row cpus data i c.
Proof.
  unfold data_row. do 3 f_equal. apply list_fmap_ext. intros _ j _.
  by rewrite latency_touch.
Qed.

Lemma print_rows cpus (rows : list nat) out data :
  foldl (print_row cpus) (out, data) (Z.of_nat <$> rows)
  = (out +:+ join ((λ i, data_row cpus data i (cpus !!! i)) <$> rows),
     touch ((Z.of_nat <$> rows) ≫=
              λ i, (λ j, (i, j)) <$> seqZ 0 (Z.of_nat (length cpus))) data).
Proof.
  revert out data. induction rows as [|i rows IH]; intros out data.
  - by rewrite !fmap_nil, join_nil, append_nil_r.
  - rewrite !fmap_cons, foldl_cons, print_row_eq, IH.
    rewrite bind_cons, touch_app, join_cons, append_assoc.
    f_equal. do 3 f_equal.
    apply list_fmap_ext. intros _ i' _. apply data_row_touch.
Qed.

Lemma imap_positions {B} (f : nat → Z → B) cpus :
  imap f cpus = (λ i, f i (cpus !!! i)) <$> seq 0 (length cpus).
Proof.
  apply list_eq. intros i. rewrite list_lookup_imap, list_lookup_fmap.
  destruct (decide (i < length cpus)%nat) as [Hi|Hi].
  - rewrite lookup_seq_lt by done. simpl.
    destruct (lookup_lt_is_Some_2 cpus i Hi) as [c Hc]. rewrite Hc. simpl.
    by rewrite (list_lookup_total_correct _ _ _ Hc).
  - rewrite lookup_seq_ge by lia. rewrite (proj2 (lookup_ge_None cpus i)) by lia.
    done.
Qed.

(** Printing the table appends the described table to the output and leaves
    the matrix with every looked-up key. *)
Lemma print_table_eq cpus out data :
  print_table cpus (out, data)
  = (out +:+ table cpus data, touch (cells (Z.of_nat (length cpus))) data).
Proof.
  unfold print_table, table, cells.
  rewrite print_header_eq, seqZ_of_nat, print_rows.
  by rewrite append_assoc, imap_positions, <- seqZ_of_nat.
Qed.

End Table.

(** ** The sampling loop *)

Section Sampling.

Implicit Types (o : os) (k : nat) (r : Z).

Lemma sample_loop o (ms : list Z) k r :
  foldl (sample o) (k, r) ms
  = ((k + 2 * length ms)%nat,
     foldl Z.min r
       ((λ m, steady_clock_now o (k + 2 * m + 1)%nat - steady_clock_now o (k + 2 * m)%nat)
          <$> seq 0 (length ms))).
Proof.
  revert k r. induction ms as [|m ms IH]; intros k r.
  - simpl. f_equal. lia.
  - rewrite foldl_cons. unfold sample at 2. rewrite IH. f_equal; [simpl; lia|].
    simpl length. rewrite <- cons_seq, fmap_cons, foldl_cons.
    replace (k + 2 * 0 + 1)%nat with (S k) by lia.
    replace (k + 2 * 0)%nat with k by lia.
    f_equal. rewrite <- fmap_S_seq, <- list_fmap_compose.
    apply list_fmap_ext. intros _ m' _. simpl.
    f_equal; f_equal; lia.
Qed.

Lemma sample_loop_rtt o nsamples k :
  foldl (sample o) (k, nanoseconds_max) (seqZ 0 nsamples)
  = ((k + 2 * Z.to_nat nsamples)%nat, round_trip o k nsamples).
Proof. by rewrite sample_loop, length_seqZ. Qed.

Lemma foldl_min_le (l : list Z) r :
  foldl Z.min r l ≤ r ∧ ∀ x, x ∈ l → foldl Z.min r l ≤ x.
Proof.
  revert r. induction l as [|y l IH]; intros r; simpl.
  - split; [lia|]. by intros x ?%elem_of_nil.
  - destruct (IH (Z.min r y)) as [H1 H2]. split; [lia|].
    intros x [->|Hx]%elem_of_cons; [lia | by apply H2].
Qed.

Lemma foldl_min_elem (l : list Z) r :
  foldl Z.min r l = r ∨ foldl Z.min r l ∈ l.
Proof.
  revert r. induction l as [|y l IH]; intros r; simpl; [by left|].
  destruct (IH (Z.min r y)) as [H|H].
  - rewrite H. destruct (Z.min_spec r y) as [[_ ->]|[_ ->]];
      [by left | right; apply list_elem_of_here].
  - right. by apply list_elem_of_further.
Qed.

Lemma foldl_min_minimum (l : list Z) r :
  l ≠ [] → (∀ x, x ∈ l → x ≤ r) → minimum_of l (foldl Z.min r l).
Proof.
  intros Hne Hle. destruct (foldl_min_le l r) as [H1 H2]. split; [|done].
  destruct (foldl_min_elem l r) as [H|H]; [|done].
  destruct l as [|y l]; [done|].
  assert (y = r) as ->.
  { pose proof (Hle y (list_elem_of_here _ _)).
    pose proof (H2 y (list_elem_of_here _ _)). lia. }
  rewrite H. apply list_elem_of_here.
Qed.

Lemma durations_range o k nsamples d :
  steady o → d ∈ durations o k nsamples → 0 ≤ d ≤ nanoseconds_max.
Proof.
  intros Hs (m & -> & _)%list_elem_of_fmap.
  replace (k + 2 * m + 1)%nat with (S (k + 2 * m)) by lia.
  destruct (Hs (k + 2 * m)%nat) as [? ?]. lia.
Qed.

Lemma durations_nonempty o k nsamples : 1 ≤ nsamples → durations o k nsamples ≠ [].
Proof.
  intros Hn Hd. apply (f_equal length) in Hd.
  unfold durations in Hd. rewrite length_fmap, length_seq in Hd. simpl in Hd. lia.
Qed.

Lemma round_trip_minimum o k nsamples :
  steady o → 1 ≤ nsamples →
  minimum_of (durations o k nsamples) (round_trip o k nsamples).
Proof.
  intros Hs Hn. apply foldl_min_minimum; [by apply durations_nonempty|].
  intros d Hd. by apply (durations_range o k nsamples d Hs).
Qed.

Lemma round_trip_nonneg o k nsamples : steady o → 0 ≤ round_trip o k nsamples.
Proof.
  intros Hs. unfold round_trip.
  destruct (foldl_min_elem (durations o k nsamples) nanoseconds_max) as [->|H].
  - done.
  - by apply (durations_range o k nsamples _ Hs).
Qed.

Lemma one_way_nonneg r : 0 ≤ r → 0 ≤ one_way r.
Proof.
  intros Hr. unfold one_way. apply Z.quot_pos; [|lia]. apply Z.quot_pos; lia.
Qed.

End Sampling.

(** ** Measuring all pairs *)

Section Measuring.

Context (o : os) (nsamples : Z) (cpus : list Z).

Implicit Types (st : probe_state) (ps : list (Z * Z)) (key : Z * Z).

Local Abbreviation n := (Z.of_nat (length cpus)).
Local Abbreviation body := (probe_pair o nsamples cpus).

Lemma for_each_app {S A} (f : A → S → fatal S) (l1 l2 : list A) (s : S) :
  for_each f (l1 ++ l2) s =
    match for_each f l1 s with
    | inl e => inl e
    | inr s' => for_each f l2 s'
    end.
Proof.
  revert s. induction l1 as [|x l1 IH]; intros s; simpl; [done|].
  destruct (f x s); [done | apply IH].
Qed.

Lemma for_each_fmap {S A B} (g : A → B) (f : B → S → fatal S) (l : list A) (s : S) :
  for_each f (g <$> l) s = for_each (λ x, f (g x)) l s.
Proof.
  revert s. induction l as [|x l IH]; intros s; simpl; [done|].
  destruct (f (g x) s); [done | apply IH].
Qed.

(** The two nested loops visit [pairs n] in order. *)
Lemma measure_pairs :
  measure o nsamples cpus = for_each body (pairs n) {| ticks := 0; data := ∅ |}.
Proof.
  unfold measure, pairs.
  generalize {| ticks := 0; data := ∅ |}.
  induction (seqZ 0 n) as [|i l IH]; intros st; [done|].
  rewrite bind_cons, for_each_app, for_each_fmap. simpl.
  destruct (for_each _ (seqZ (i + 1) (n - (i + 1))) st); [done | apply IH].
Qed.

Lemma probe_inr i j st st' :
  probe o nsamples cpus i j st = inr st' →
  st' = {| ticks := ticks st + 2 * Z.to_nat nsamples;
           data := <[(j, i) := one_way (round_trip o (ticks st) nsamples)]>
                     (<[(i, j) := one_way (round_trip o (ticks st) nsamples)]>
                        (data st)) |}.
Proof.
  unfold probe. destruct (pinThread _ _); [done|]. destruct (pinThread _ _); [done|].
  rewrite sample_loop_rtt. by intros [= <-].
Qed.

Lemma probe_pinnable i j st :
  (0 ≤ i < n) → (0 ≤ j < n) → pinnable o cpus →
  ∃ st', probe o nsamples cpus i j st = inr st'.
Proof.
  intros Hi Hj Hpin. unfold probe, pinThread.
  assert (∀ i, 0 ≤ i < n → cpus !!! Z.to_nat i ∈ cpus) as Hin.
  { intros i' Hi'. apply list_elem_of_lookup_total_2. lia. }
  rewrite !Hpin by auto. rewrite sample_loop_rtt. eauto.
Qed.

Lemma probe_pinned i j st st' :
  probe o nsamples cpus i j st = inr st' →
  sched_setaffinity o (CPU_SET (cpus !!! Z.to_nat i) CPU_ZERO) = None
  ∧ sched_setaffinity o (CPU_SET (cpus !!! Z.to_nat j) CPU_ZERO) = None.
Proof.
  unfold probe, pinThread.
  destruct (sched_setaffinity o (CPU_SET (cpus !!! Z.to_nat i) _)); [done|].
  by destruct (sched_setaffinity o (CPU_SET (cpus !!! Z.to_nat j) _)).
Qed.

Lemma for_each_pinned ps st st' p :
  for_each body ps st = inr st' → p ∈ ps →
  sched_setaffinity o (CPU_SET (cpus !!! Z.to_nat p.1) CPU_ZERO) = None
  ∧ sched_setaffinity o (CPU_SET (cpus !!! Z.to_nat p.2) CPU_ZERO) = None.
Proof.
  revert st. induction ps as [|q ps IH]; intros st; simpl.
  - by intros _ ?%elem_of_nil.
  - destruct (body q st) as [|st1] eqn:Hq; [done|].
    intros Hrest [->|Hp]%elem_of_cons.
    + by apply probe_pinned in Hq.
    + by apply (IH st1).
Qed.

Lemma for_each_ticks ps st st' :
  for_each body ps st = inr st' →
  ticks st' = (ticks st + 2 * Z.to_nat nsamples * length ps)%nat.
Proof.
  revert st. induction ps as [|p ps IH]; intros st; simpl.
  - intros [= <-]. lia.
  - destruct (body p st) as [|st1] eqn:Hp; [done|].
    intros Hrest. apply IH in Hrest. apply probe_inr in Hp.
    rewrite Hrest, Hp. simpl. lia.
Qed.

(** An entry of the matrix is an entry from before, or was written for a
    visited pair, under the pair or under its mirror image. *)
Lemma for_each_written ps st st' key :
  for_each body ps st = inr st' →
  is_Some (data st' !! key) →
  is_Some (data st !! key) ∨ ∃ p, p ∈ ps ∧ (key = p ∨ key = (p.2, p.1)).
Proof.
  revert st. induction ps as [|p ps IH]; intros st; simpl.
  - intros [= <-]. by left.
  - destruct (body p st) as [|st1] eqn:Hp; [done|].
    intros Hrest Hsome. destruct (IH _ Hrest Hsome) as [H1|(q & Hq & Hkey)].
    + apply probe_inr in Hp. rewrite Hp in H1. simpl in H1.
      destruct (decide (key = (p.2, p.1))) as [->|Hne1].
      { right. exists p. split; [apply list_elem_of_here | by right]. }
      rewrite lookup_insert_ne in H1 by done.
      destruct (decide (key = (p.1, p.2))) as [->|Hne2].
      { right. exists p. split; [apply list_elem_of_here | left; by destruct p]. }
      rewrite lookup_insert_ne in H1 by done. by left.
    + right. exists q. split; [by apply list_elem_of_further | done].
Qed.

Lemma for_each_untouched ps st st' key :
  for_each body ps st = inr st' →
  (∀ p, p ∈ ps → key ≠ p ∧ key ≠ (p.2, p.1)) →
  data st' !! key = data st !! key.
Proof.
  revert st. induction ps as [|p ps IH]; intros st; simpl.
  - by intros [= <-].
  - destruct (body p st) as [|st1] eqn:Hp; [done|].
    intros Hrest Hkey. rewrite (IH _ Hrest).
    + apply probe_inr in Hp. rewrite Hp. simpl.
      destruct (Hkey p (list_elem_of_here _ _)) as [H1 H2].
      rewrite !lookup_insert_ne; [done| |done]. by destruct p.
    + intros q Hq. apply Hkey. by apply list_elem_of_further.
Qed.

(** The pair at a position of the visited list gets the latency of the
    samples that start where the earlier pairs left the clock. *)
Lemma for_each_recorded before after i j st st' :
  for_each body (before ++ (i, j) :: after) st = inr st' →
  i ≠ j →
  (∀ p, p ∈ after → p ≠ (i, j) ∧ p ≠ (j, i)) →
  let v := one_way (round_trip o (ticks st + 2 * Z.to_nat nsamples * length before)
                      nsamples) in
  data st' !! (i, j) = Some v ∧ data st' !! (j, i) = Some v.
Proof.
  intros Hrun Hij Hafter v. rewrite for_each_app in Hrun.
  destruct (for_each body before st) as [|st1] eqn:H1; [done|].
  simpl in Hrun. destruct (body (i, j) st1) as [|st2] eqn:H2; [done|].
  apply for_each_ticks in H1. apply probe_inr in H2. simpl in H2.
  assert (∀ key, key = (i, j) ∨ key = (j, i) → data st' !! key = data st2 !! key)
    as Hkeep.
  { intros key Hkey. apply (for_each_untouched after); [done|].
    intros [a b] Hp. destruct (Hafter _ Hp) as [Ha Hb]. simpl.
    destruct Hkey as [->| ->]; split; congruence. }
  rewrite !Hkeep by auto. rewrite H2, H1. simpl. split.
  - rewrite lookup_insert_ne by congruence. by rewrite lookup_insert_eq.
  - by rewrite lookup_insert_eq.
Qed.

Lemma elem_of_pairs i j : (i, j) ∈ pairs n ↔ 0 ≤ i ∧ i < j < n.
Proof.
  unfold pairs. rewrite list_elem_of_bind. split.
  - intros (a & (b & [= -> ->] & Hb%elem_of_seqZ)%list_elem_of_fmap & Ha%elem_of_seqZ).
    lia.
  - intros H. exists i. rewrite list_elem_of_fmap, elem_of_seqZ. split; [|lia].
    exists j. rewrite elem_of_seqZ. split; [done | lia].
Qed.

Lemma NoDup_pairs : NoDup (pairs n).
Proof.
  unfold pairs. apply NoDup_bind; [| |apply NoDup_seqZ].
  - intros a1 a2 [i j] _ _ (b1 & [= -> ->] & _)%list_elem_of_fmap
      (b2 & [= -> _] & _)%list_elem_of_fmap. done.
  - intros a _. apply NoDup_fmap_2; [|apply NoDup_seqZ]. by intros ?? [= ->].
Qed.

(** After all pairs are measured, the entries under the positions [i < j]
    of the list of cores hold the one-way latency of that pair's samples. *)
Lemma measure_recorded st i j :
  measure o nsamples cpus = inr st →
  0 ≤ i ∧ i < j < n →
  ∃ before after,
    pairs n = before ++ (i, j) :: after ∧
    let v := one_way (round_trip o (2 * Z.to_nat nsamples * length before) nsamples) in
    data st !! (i, j) = Some v ∧ data st !! (j, i) = Some v.
Proof.
  rewrite measure_pairs. intros Hrun Hij.
  destruct (list_elem_of_split (pairs n) (i, j)) as (before & after & Hsplit);
    [by apply elem_of_pairs|].
  exists before, after. split; [done|].
  rewrite Hsplit in Hrun.
  apply for_each_recorded in Hrun; [done | lia |].
  intros [a b] Hp.
  pose proof NoDup_pairs as Hnd. rewrite Hsplit in Hnd.
  apply NoDup_app in Hnd as (_ & _ & Hnd). apply NoDup_cons in Hnd as [Hnotin _].
  split; [by intros [= -> ->]|]. intros [= -> ->].
  assert ((j, i) ∈ pairs n) as Hin.
  { rewrite Hsplit, elem_of_app, elem_of_cons. auto. }
  apply elem_of_pairs in Hin. lia.
Qed.

(** The keys of the matrix are the pairs of distinct positions. *)
Lemma measure_keys st a b :
  measure o nsamples cpus = inr st →
  is_Some (data st !! (a, b)) ↔ (0 ≤ a < n ∧ 0 ≤ b < n ∧ a ≠ b).
Proof.
  intros Hrun. split.
  - rewrite measure_pairs in Hrun. intros Hsome.
    destruct (for_each_written _ _ _ _ Hrun Hsome) as [H|([i j] & Hp & Hkey)].
    + simpl in H. rewrite lookup_empty in H. by destruct H.
    + apply elem_of_pairs in Hp. simpl in Hkey.
      destruct Hkey as [[= -> ->]|[= -> ->]]; lia.
  - intros (Ha & Hb & Hab).
    destruct (decide (a < b)) as [Hlt|Hge].
    + destruct (measure_recorded st a b Hrun) as (? & ? & _ & H & _); [lia|].
      by rewrite H.
    + destruct (measure_recorded st b a Hrun) as (? & ? & _ & _ & H); [lia|].
      by rewrite H.
Qed.

Lemma measure_pinned st i j :
  measure o nsamples cpus = inr st →
  0 ≤ i ∧ i < j < n →
  sched_setaffinity o (CPU_SET (cpus !!! Z.to_nat i) CPU_ZERO) = None
  ∧ sched_setaffinity o (CPU_SET (cpus !!! Z.to_nat j) CPU_ZERO) = None.
Proof.
  rewrite measure_pairs. intros Hrun Hij%elem_of_pairs.
  apply (for_each_pinned _ _ _ (i, j) Hrun Hij).
Qed.

Lemma measure_pinnable :
  pinnable o cpus → ∃ st, measure o nsamples cpus = inr st.
Proof.
  intros Hpin. rewrite measure_pairs.
  assert (∀ p, p ∈ pairs n → 0 ≤ p.1 < n ∧ 0 ≤ p.2 < n) as Hrange.
  { intros [i j] H%elem_of_pairs. simpl. lia. }
  revert Hrange. generalize {| ticks := 0; data := ∅ |}.
  induction (pairs n) as [|p ps IH]; intros st Hrange; simpl; [eauto|].
  destruct (Hrange p (list_elem_of_here _ _)) as [H1 H2].
  destruct (probe_pinnable p.1 p.2 st H1 H2 Hpin) as [st1 Hst1].
  unfold probe_pair at 1. rewrite Hst1. apply IH.
  intros q Hq. apply Hrange. by apply list_elem_of_further.
Qed.

End Measuring.

(** ** The option loop *)

Section OptionLoop.

Implicit Types (o : options) (r : getopt_result) (rs : list getopt_result).

(** Closes a goal with a hypothesis [c ∈ [c1; ...; cn]] that the other
    hypotheses on [c] exclude. *)
Local Ltac not_among H :=
  exfalso; rewrite ?elem_of_cons, elem_of_nil in H; intuition congruence.

Lemma handle_opt_opt o c optarg :
  handle_opt o (opt c optarg) =
    if decide (c = "p"%char) then
      parsed {| nsamples := nsamples o; begin_core := begin_core o;
                end_core := end_core o; plot := true |}
    else if decide (c = "s"%char) then
      match stoi optarg with
      | inr v => parsed {| nsamples := v; begin_core := begin_core o;
                           end_core := end_core o; plot := plot o |}
      | inl e => thrown e
      end
    else if decide (c = "b"%char) then
      match stoi optarg with
      | inr v => parsed {| nsamples := nsamples o; begin_core := Z.max v 0;
                           end_core := end_core o; plot := plot o |}
      | inl e => thrown e
      end
    else if decide (c = "e"%char) then
      match stoi optarg with
      | inr v => parsed {| nsamples := nsamples o; begin_core := begin_core o;
                           end_core := Z.min v CPU_SETSIZE; plot := plot o |}
      | inl e => thrown e
      end
    else usage.
Proof.
  destruct c as [[] [] [] [] [] [] [] []]; reflexivity.
Qed.

Lemma throws_opt c optarg :
  throws (opt c optarg) =
    if decide (c = "s"%char ∨ c = "b"%char ∨ c = "e"%char) then
      match stoi optarg with
      | inl e => Some e
      | inr _ => None
      end
    else None.
Proof.
  unfold throws. case_bool_decide as Hc; case_decide as Hc'; try done.
  - not_among Hc.
  - exfalso. apply Hc. rewrite !elem_of_cons. tauto.
Qed.

Lemma handle_opt_throws o r e : throws r = Some e → handle_opt o r = thrown e.
Proof.
  destruct r as [c optarg|]; [|done]. rewrite throws_opt, handle_opt_opt.
  case_decide as Hc; [|done].
  destruct (stoi optarg) as [e'|v]; [|done]. intros [= ->].
  destruct Hc as [->|[->| ->]]; reflexivity.
Qed.

Lemma handle_opt_accepted o r :
  accepted r = true → ∃ o', handle_opt o r = parsed o'.
Proof.
  destruct r as [c optarg|]; [|done]. unfold accepted.
  rewrite throws_opt, handle_opt_opt. intros [Hc Hthrows]%andb_prop.
  apply bool_decide_eq_true in Hc, Hthrows.
  rewrite !elem_of_cons, elem_of_nil in Hc.
  destruct Hc as [->|[->|[->|[->|[]]]]]; simpl in *;
    try (destruct (stoi optarg); [done|]); eauto.
Qed.

Lemma handle_opt_bounds o r o' :
  handle_opt o r = parsed o' →
  0 ≤ begin_core o → end_core o ≤ CPU_SETSIZE →
  0 ≤ begin_core o' ∧ end_core o' ≤ CPU_SETSIZE.
Proof.
  destruct r as [c optarg|]; [|done]. rewrite handle_opt_opt.
  repeat case_decide; try destruct (stoi optarg); try done;
    intros [= <-]; simpl; lia.
Qed.

Lemma option_loop_app o rs1 rs2 :
  option_loop o (rs1 ++ rs2) =
    match option_loop o rs1 with
    | parsed o' => option_loop o' rs2
    | stop => stop
    end.
Proof.
  revert o. induction rs1 as [|r rs1 IH]; intros o; simpl; [done|].
  destruct (handle_opt o r); [apply IH|done..].
Qed.

Lemma option_loop_accepted o rs :
  Forall (λ r, accepted r = true) rs → ∃ o', option_loop o rs = parsed o'.
Proof.
  intros Hrs. revert o. induction Hrs as [|r rs Hr _ IH]; intros o; simpl; [eauto|].
  destruct (handle_opt_accepted o r Hr) as [o' ->]. apply IH.
Qed.

Lemma option_loop_bounds o rs o' :
  option_loop o rs = parsed o' →
  0 ≤ begin_core o → end_core o ≤ CPU_SETSIZE →
  0 ≤ begin_core o' ∧ end_core o' ≤ CPU_SETSIZE.
Proof.
  revert o. induction rs as [|r rs IH]; intros o; simpl.
  - by intros [= <-].
  - destruct (handle_opt o r) as [o1| |] eqn:Hr; [|done..].
    intros Hrest Hb He. destruct (handle_opt_bounds _ _ _ Hr Hb He).
    by apply (IH o1).
Qed.

(** An option that does not occur leaves its variable as it was. *)
Lemma option_loop_unset o rs o' :
  option_loop o rs = parsed o' →
  ((∀ a, opt "s" a ∉ rs) → nsamples o' = nsamples o)
  ∧ ((∀ a, opt "b" a ∉ rs) → begin_core o' = begin_core o)
  ∧ ((∀ a, opt "e" a ∉ rs) → end_core o' = end_core o)
  ∧ ((∀ a, opt "p" a ∉ rs) → plot o' = plot o).
Proof.
  revert o. induction rs as [|r rs IH]; intros o; simpl.
  - by intros [= <-].
  - destruct (handle_opt o r) as [o1| |] eqn:Hr; [|done..].
    intros (IH1 & IH2 & IH3 & IH4)%IH.
    destruct r as [c optarg|]; [|done]. rewrite handle_opt_opt in Hr.
    assert (∀ c' : ascii, (∀ a, opt c' a ∉ opt c optarg :: rs) →
                          c ≠ c' ∧ ∀ a, opt c' a ∉ rs) as Hsplit.
    { intros c' H. split.
      - intros ->. apply (H optarg), list_elem_of_here.
      - intros a Ha. apply (H a). by apply list_elem_of_further. }
    repeat split; intros [Hc H]%Hsplit;
      [rewrite IH1 by done | rewrite IH2 by done
      | rewrite IH3 by done | rewrite IH4 by done];
      repeat case_decide; try destruct (stoi optarg); try done;
      by injection Hr as <-.
Qed.

(** The last [-b] and the last [-e] of an accepted command line set the
    bounds of the range. *)
Lemma option_loop_last_b o before optarg after o' :
  option_loop o (before ++ opt "b" optarg :: after) = parsed o' →
  (∀ a, opt "b" a ∉ after) →
  ∃ v, stoi optarg = inr v ∧ begin_core o' = Z.max v 0.
Proof.
  rewrite option_loop_app.
  destruct (option_loop o before) as [o1| |]; [|done..]. simpl.
  destruct (stoi optarg) as [|v]; [done|].
  intros (_ & Hb & _)%option_loop_unset Hafter. exists v. by rewrite Hb.
Qed.

Lemma option_loop_last_e o before optarg after o' :
  option_loop o (before ++ opt "e" optarg :: after) = parsed o' →
  (∀ a, opt "e" a ∉ after) →
  ∃ v, stoi optarg = inr v ∧ end_core o' = Z.min v CPU_SETSIZE.
Proof.
  rewrite option_loop_app.
  destruct (option_loop o before) as [o1| |]; [|done..]. simpl.
  destruct (stoi optarg) as [|v]; [done|].
  intros (_ & _ & He & _)%option_loop_unset Hafter. exists v. by rewrite He.
Qed.

(** The loop stops with the usage text at the first result that [getopt]
    rejects, when it accepted the options before it. *)
Lemma option_loop_usage o before after :
  Forall (λ r, accepted r = true) before →
  option_loop o (before ++ opt_error :: after) = usage.
Proof.
  intros H. rewrite option_loop_app.
  by destruct (option_loop_accepted o before H) as [o' ->].
Qed.

(** The loop stops with the exception of the first value that does not
    parse, when it accepted the options before it. *)
Lemma option_loop_thrown o before r after e :
  Forall (λ r, accepted r = true) before →
  throws r = Some e →
  option_loop o (before ++ r :: after) = thrown e.
Proof.
  intros H Hr. rewrite option_loop_app.
  destruct (option_loop_accepted o before H) as [o' ->]. simpl.
  by rewrite (handle_opt_throws o' r e Hr).
Qed.

End OptionLoop.

(** ** The results of [getopt] *)

Section Getopt.

Implicit Types (c : ascii) (s a : string) (args : list string).

Lemma has_arg_optstring c :
  c ≠ ":"%char →
  has_arg optstring c =
    if decide (c = "b"%char) then Some true
    else if decide (c = "e"%char) then Some true
    else if decide (c = "p"%char) then Some false
    else if decide (c = "s"%char) then Some true
    else None.
Proof.
  destruct c as [[] [] [] [] [] [] [] []]; intros Hc; try reflexivity.
  by destruct Hc.
Qed.

Lemma has_arg_recognized c (b : bool) :
  c ≠ ":"%char → has_arg optstring c = Some b → c ∈ ["p"; "s"; "b"; "e"]%char.
Proof.
  intros Hc. rewrite has_arg_optstring by done. rewrite !elem_of_cons.
  repeat case_decide; intros; subst; auto. done.
Qed.

Lemma cluster_step c s :
  cluster optstring (String c s) =
    match (if decide (c = ":"%char) then None else has_arg optstring c) with
    | None => (opt_error :: (cluster optstring s).1, (cluster optstring s).2)
    | Some false => (opt c EmptyString :: (cluster optstring s).1, (cluster optstring s).2)
    | Some true =>
        match s with
        | EmptyString => ([], Some c)
        | _ => ([opt c s], None)
        end
    end.
Proof.
  change (cluster optstring (String c s)) with
    (match (if decide (c = ":"%char) then None else has_arg optstring c) with
     | None => let '(rs, p) := cluster optstring s in (opt_error :: rs, p)
     | Some false => let '(rs, p) := cluster optstring s in (opt c EmptyString :: rs, p)
     | Some true =>
         match s with
         | EmptyString => ([], Some c)
         | _ => ([opt c s], None)
         end
     end).
  by destruct (cluster optstring s).
Qed.

Lemma cluster_recognized s :
  Forall recognized (cluster optstring s).1
  ∧ ∀ c, (cluster optstring s).2 = Some c → c ∈ ["p"; "s"; "b"; "e"]%char.
Proof.
  induction s as [|c s [IH1 IH2]].
  - split; [constructor | done].
  - rewrite cluster_step. destruct (decide (c = ":"%char)) as [->|Hc].
    + split; [|done]. by apply Forall_cons_2.
    + destruct (has_arg optstring c) as [[]|] eqn:Harg.
      * apply has_arg_recognized in Harg; [|done].
        destruct s; simpl.
        -- split; [constructor | by intros ? [= <-]].
        -- split; [|done]. apply Forall_cons_2; [exact Harg | apply Forall_nil_2].
      * apply has_arg_recognized in Harg; [|done].
        split; [|done]. by apply Forall_cons_2.
      * split; [|done]. by apply Forall_cons_2.
Qed.

Lemma getopt_all_cons (posix : bool) (pending : option ascii) a args :
  getopt_all posix optstring pending (a :: args) =
    match pending with
    | Some c => (opt c a :: (getopt_all posix optstring None args).1,
                 (getopt_all posix optstring None args).2)
    | None =>
        if decide (a = "--") then ([], bool_decide (args ≠ []))
        else
          match option_characters a with
          | Some s =>
              ((cluster optstring s).1
                 ++ (getopt_all posix optstring (cluster optstring s).2 args).1,
               (getopt_all posix optstring (cluster optstring s).2 args).2)
          | None =>
              if posix then ([], true)
              else ((getopt_all posix optstring None args).1, true)
          end
    end.
Proof.
  change (getopt_all posix optstring pending (a :: args)) with
    (match pending with
     | Some c =>
         let '(rs, rest) := getopt_all posix optstring None args in
         (opt c a :: rs, rest)
     | None =>
         if decide (a = "--") then ([], bool_decide (args ≠ []))
         else
           match option_characters a with
           | Some s =>
               let '(rs1, p) := cluster optstring s in
               let '(rs2, rest) := getopt_all posix optstring p args in
               (rs1 ++ rs2, rest)
           | None =>
               if posix then ([], true)
               else
                 let '(rs, _) := getopt_all posix optstring None args in
                 (rs, true)
           end
     end).
  destruct pending.
  - by destruct (getopt_all posix optstring None args).
  - case_decide; [done|]. destruct (option_characters a) as [s|].
    + destruct (cluster optstring s) as [rs1 p]. simpl.
      by destruct (getopt_all posix optstring p args).
    + destruct posix; [done|]. by destruct (getopt_all false optstring None args).
Qed.

Lemma getopt_all_recognized (posix : bool) (pending : option ascii) args :
  (∀ c, pending = Some c → c ∈ ["p"; "s"; "b"; "e"]%char) →
  Forall recognized (getopt_all posix optstring pending args).1.
Proof.
  revert pending. induction args as [|a args IH]; intros pending Hp.
  - destruct pending; [|apply Forall_nil_2].
    apply Forall_cons_2; [done | apply Forall_nil_2].
  - rewrite getopt_all_cons. destruct pending as [c|].
    + apply Forall_cons_2; [by apply Hp | by apply IH].
    + case_decide; [apply Forall_nil_2|].
      destruct (option_characters a) as [s|].
      * destruct (cluster_recognized s) as [H1 H2].
        apply Forall_app. split; [done | by apply IH].
      * destruct posix; [apply Forall_nil_2 | by apply IH].
Qed.

Lemma getopt_recognized (posix : bool) args :
  Forall recognized (getopt posix optstring args).1.
Proof. by apply getopt_all_recognized. Qed.

(** A result of [getopt] that is not ['?'] and whose value, if it has one,
    parses is accepted. *)
Lemma recognized_accepted (r : getopt_result) :
  recognized r → r ≠ opt_error → throws r = None → accepted r = true.
Proof.
  destruct r as [c optarg|]; [|done]. intros Hc _ Hthrows. unfold accepted.
  by rewrite !bool_decide_eq_true_2.
Qed.

Lemma getopt_prefix_accepted (posix : bool) args before after :
  (getopt posix optstring args).1 = before ++ after →
  Forall (λ r, r ≠ opt_error ∧ throws r = None) before →
  Forall (λ r, accepted r = true) before.
Proof.
  intros Hrs Hok. pose proof (getopt_recognized posix args) as Hrec.
  rewrite Hrs in Hrec. apply Forall_app in Hrec as [Hrec _].
  rewrite Forall_forall in Hrec, Hok. apply Forall_forall. intros r Hr.
  destruct (Hok r Hr). by apply recognized_accepted; [apply Hrec|..].
Qed.

End Getopt.

(** ** The example machine *)

Section ExampleMachine.

Import Examples.

Lemma machine_steady : steady machine.
Proof. intros k. unfold machine, clock, nanoseconds_max. simpl. lia. Qed.

Lemma machine_pinnable (cpus : list Z) : pinnable machine cpus.
Proof. by intros c _. Qed.

End ExampleMachine.

(** ** The latency matrix *)

(** C1. For every measured pair (the cores at positions [i < j] of the
    enumerated list) and every [nsamples >= 1], the latency recorded for the
    pair is the minimum of the [nsamples] round-trip durations of that pair,
    divided by 2 and then by 100 in integer division; it is not negative, and
    with [nsamples = 1] it is the duration of the single sample / 2 / 100. *)
Theorem one_way_latency_recorded (o : os) (nsamples : Z) (cpus : list Z)
    (st : probe_state) (i j : Z) :
  measure o nsamples cpus = inr st →
  steady o →
  1 ≤ nsamples →
  0 ≤ i ∧ i < j < Z.of_nat (length cpus) →
  ∃ before after rtt,
    pairs (Z.of_nat (length cpus)) = before ++ (i, j) :: after
    ∧ let k := (2 * Z.to_nat nsamples * length before)%nat in
      minimum_of (durations o k nsamples) rtt
      ∧ length (durations o k nsamples) = Z.to_nat nsamples
      ∧ data st !! (i, j) = Some (Z.quot (Z.quot rtt 2) 100)
      ∧ data st !! (j, i) = Some (Z.quot (Z.quot rtt 2) 100)
      ∧ 0 ≤ Z.quot (Z.quot rtt 2) 100
      ∧ (nsamples = 1 →
         rtt = steady_clock_now o (k + 1) - steady_clock_now o k).
Proof.
  intros Hrun Hsteady Hn Hij.
  destruct (measure_recorded o nsamples cpus st i j Hrun Hij)
    as (before & after & Hsplit & Hij' & Hji').
  exists before, after. eexists. split; [exact Hsplit|]. cbv zeta.
  pose proof (round_trip_minimum o (2 * Z.to_nat nsamples * length before)
                nsamples Hsteady Hn) as Hmin.
  split_and!; [exact Hmin | | exact Hij' | exact Hji' | |].
  - unfold durations. by rewrite length_fmap, length_seq.
  - by apply one_way_nonneg, round_trip_nonneg.
  - intros ->. destruct Hmin as [Hin _].
    change (durations o ?k 1) with
      [steady_clock_now o (k + 2 * 0 + 1)%nat - steady_clock_now o (k + 2 * 0)%nat]
      in Hin.
    apply list_elem_of_singleton in Hin. rewrite Hin. f_equal; f_equal; lia.
Qed.

Lemma one_way_latency_recorded_witness :
  ∃ st, measure Examples.machine 1 [2; 4; 7] = inr st
        ∧ ∃ rtt, data st !! (1, 2) = Some (Z.quot (Z.quot rtt 2) 100)
                 ∧ data st !! (2, 1) = Some (Z.quot (Z.quot rtt 2) 100)
                 ∧ 0 ≤ Z.quot (Z.quot rtt 2) 100.
Proof.
  assert (∃ st, measure Examples.machine 1 [2; 4; 7] = inr st) as [st Hst]
    by (eexists; vm_compute; reflexivity).
  exists st. split; [exact Hst|].
  destruct (one_way_latency_recorded Examples.machine 1 [2; 4; 7] st 1 2 Hst
              machine_steady ltac:(lia) ltac:(simpl; lia))
    as (before & after & rtt & _ & _ & _ & Hij & Hji & Hpos & _).
  exists rtt. split_and!; [exact Hij | exact Hji | exact Hpos].
Defined.

(** C3, as the program has it. After all pairs are measured with a steady
    clock, every two distinct positions [i], [j] of the enumerated list have
    both directed entries [(i, j)] and [(j, i)], equal and not negative, and
    no diagonal entry [(k, k)] was written. The entries are under positions
    of the list, not under core ids. *)
Theorem matrix_mirrored_by_position (o : os) (nsamples : Z) (cpus : list Z)
    (st : probe_state) :
  measure o nsamples cpus = inr st →
  steady o →
  (∀ i j, 0 ≤ i < Z.of_nat (length cpus) → 0 ≤ j < Z.of_nat (length cpus) → i ≠ j →
     ∃ v, data st !! (i, j) = Some v ∧ data st !! (j, i) = Some v ∧ 0 ≤ v)
  ∧ (∀ k, data st !! (k, k) = None).
Proof.
  intros Hrun Hsteady. split.
  - intros i j Hi Hj Hne.
    destruct (decide (i < j)) as [Hlt|Hge].
    + destruct (measure_recorded o nsamples cpus st i j Hrun)
        as (before & _ & _ & H1 & H2); [lia|].
      eexists. split_and!; [exact H1 | exact H2 |].
      by apply one_way_nonneg, round_trip_nonneg.
    + destruct (measure_recorded o nsamples cpus st j i Hrun)
        as (before & _ & _ & H1 & H2); [lia|].
      eexists. split_and!; [exact H2 | exact H1 |].
      by apply one_way_nonneg, round_trip_nonneg.
  - intros k. apply eq_None_not_Some.
    rewrite (measure_keys o nsamples cpus st k k Hrun). lia.
Qed.

Lemma matrix_mirrored_by_position_witness :
  ∃ st, measure Examples.machine 2 [2; 4; 7] = inr st
        ∧ (∃ v, data st !! (0, 2) = Some v ∧ data st !! (2, 0) = Some v ∧ 0 ≤ v)
        ∧ data st !! (1, 1) = None.
Proof.
  assert (∃ st, measure Examples.machine 2 [2; 4; 7] = inr st) as [st Hst]
    by (eexists; vm_compute; reflexivity).
  exists st. split; [exact Hst|].
  destruct (matrix_mirrored_by_position Examples.machine 2 [2; 4; 7] st Hst
              machine_steady) as [Hpairs Hdiag].
  split; [|exact (Hdiag 1)].
  apply Hpairs; simpl; lia.
Defined.

(** C3, as stated, fails when the enumerated cores are not 0, 1, 2, ...: on
    the machine that permits the cores 2, 4 and 7 the matrix has no entry
    under the core ids (4, 7). *)
Lemma matrix_not_mirrored_by_core_id :
  enumerate (cpu_set_of [2; 4; 7]) 0 CPU_SETSIZE = [2; 4; 7]
  ∧ ∃ st, measure Examples.machine 1000 [2; 4; 7] = inr st
          ∧ data st !! (4, 7) = None
          ∧ ¬ mirrored_by_core_id [2; 4; 7] (data st).
Proof.
  split; [by vm_compute|].
  assert (∃ st, measure Examples.machine 1000 [2; 4; 7] = inr st
                ∧ data st !! (4, 7) = None) as (st & Hst & Hnone)
    by (eexists; split; vm_compute; reflexivity).
  exists st. split_and!; [exact Hst | exact Hnone |].
  intros H. destruct (H 4 7) as (v & Hv & _).
  - rewrite !elem_of_cons. auto.
  - rewrite !elem_of_cons. auto.
  - done.
  - congruence.
Qed.

(** C4, as the program has it. The matrix is keyed by positions in the
    enumerated list: its keys are exactly the pairs of distinct positions,
    and for positions [i < j] the result of the pair whose threads were
    pinned to the cores [cpus[i]] and [cpus[j]] is under [(i, j)] and
    [(j, i)]. *)
Theorem matrix_keyed_by_position (o : os) (nsamples : Z) (cpus : list Z)
    (st : probe_state) :
  measure o nsamples cpus = inr st →
  (∀ a b, is_Some (data st !! (a, b))
          ↔ 0 ≤ a < Z.of_nat (length cpus) ∧ 0 ≤ b < Z.of_nat (length cpus) ∧ a ≠ b)
  ∧ (∀ i j, 0 ≤ i ∧ i < j < Z.of_nat (length cpus) →
       ∃ before after,
         pairs (Z.of_nat (length cpus)) = before ++ (i, j) :: after
         ∧ sched_setaffinity o (CPU_SET (cpus !!! Z.to_nat i) CPU_ZERO) = None
         ∧ sched_setaffinity o (CPU_SET (cpus !!! Z.to_nat j) CPU_ZERO) = None
         ∧ let v := one_way (round_trip o (2 * Z.to_nat nsamples * length before)
                               nsamples) in
           data st !! (i, j) = Some v ∧ data st !! (j, i) = Some v).
Proof.
  intros Hrun. split.
  - intros a b. apply (measure_keys o nsamples cpus st a b Hrun).
  - intros i j Hij.
    destruct (measure_recorded o nsamples cpus st i j Hrun Hij)
      as (before & after & Hsplit & Hv).
    destruct (measure_pinned o nsamples cpus st i j Hrun Hij) as [Hpi Hpj].
    by exists before, after.
Qed.

Lemma matrix_keyed_by_position_witness :
  ∃ st, measure Examples.machine 2 [2; 4; 7] = inr st
        ∧ (is_Some (data st !! (1, 2)) ↔ 0 ≤ 1 < 3 ∧ 0 ≤ 2 < 3 ∧ 1 ≠ 2)
        ∧ (is_Some (data st !! (4, 7)) ↔ 0 ≤ 4 < 3 ∧ 0 ≤ 7 < 3 ∧ 4 ≠ 7).
Proof.
  assert (∃ st, measure Examples.machine 2 [2; 4; 7] = inr st) as [st Hst]
    by (eexists; vm_compute; reflexivity).
  exists st. split; [exact Hst|].
  destruct (matrix_keyed_by_position Examples.machine 2 [2; 4; 7] st Hst)
    as [Hkeys _].
  split; apply Hkeys.
Defined.

(** C4, as stated, fails on the machine that permits the cores 2, 4 and 7:
    the matrix has no key (2, 4) and no key (4, 2); its keys are the pairs
    of the positions 0, 1 and 2. *)
Lemma matrix_not_keyed_by_core_id :
  enumerate (cpu_set_of [2; 4; 7]) 0 CPU_SETSIZE = [2; 4; 7]
  ∧ ∃ st, measure Examples.machine 1000 [2; 4; 7] = inr st
          ∧ data st !! (2, 4) = None ∧ data st !! (4, 2) = None
          ∧ dom (data st) = {[ (0, 1); (1, 0); (0, 2); (2, 0); (1, 2); (2, 1) ]}
          ∧ ¬ keyed_by_core_id [2; 4; 7] (data st).
Proof.
  split; [by vm_compute|].
  assert (∃ st, measure Examples.machine 1000 [2; 4; 7] = inr st
                ∧ data st !! (2, 4) = None ∧ data st !! (4, 2) = None
                ∧ dom (data st) = {[ (0, 1); (1, 0); (0, 2); (2, 0); (1, 2); (2, 1) ]})
    as (st & Hst & H24 & H42 & Hdom)
    by (eexists; split_and!; vm_compute; reflexivity).
  exists st. split_and!; [exact Hst | exact H24 | exact H42 | exact Hdom |].
  intros H. destruct (H 2 4) as [[v Hv] _].
  - rewrite !elem_of_cons. auto.
  - rewrite !elem_of_cons. auto.
  - done.
  - congruence.
Qed.

(** ** Runs of [main] *)

Section Runs.

Implicit Types (o : os) (args : list string) (opts : options).

Lemma main_thrown o args e :
  parse_args (POSIXLY_CORRECT o) args = thrown e →
  main o args = {| ended := terminated e; cout := EmptyString; cerr := EmptyString |}.
Proof. unfold main. by intros ->. Qed.

Lemma main_usage o args :
  parse_args (POSIXLY_CORRECT o) args = usage → main o args = usage_run.
Proof. unfold main. by intros ->. Qed.

Lemma main_affinity_failed o args opts err :
  parse_args (POSIXLY_CORRECT o) args = parsed opts →
  sched_getaffinity o = inl err →
  main o args = {| ended := exited 1; cout := EmptyString;
                   cerr := perror "sched_getaffinity" err |}.
Proof. unfold main. by intros -> ->. Qed.

Lemma main_pinning_failed o args opts set e :
  parse_args (POSIXLY_CORRECT o) args = parsed opts →
  sched_getaffinity o = inr set →
  measure o (nsamples opts) (enumerate set (begin_core opts) (end_core opts)) = inl e →
  main o args = {| ended := exited 1; cout := EmptyString; cerr := e |}.
Proof. unfold main. by intros -> -> ->. Qed.

Lemma main_measured o args opts set st :
  parse_args (POSIXLY_CORRECT o) args = parsed opts →
  sched_getaffinity o = inr set →
  measure o (nsamples opts) (enumerate set (begin_core opts) (end_core opts)) = inr st →
  let cpus := enumerate set (begin_core opts) (end_core opts) in
  main o args =
    {| ended := exited 0;
       cout := if plot opts
               then set_title +:+ set_xlabel +:+ set_ylabel +:+ set_cblabel
                    +:+ data_begin +:+ table cpus (data st)
                    +:+ data_end +:+ plot_command
               else table cpus (data st);
       cerr := EmptyString |}.
Proof.
  unfold main. intros -> -> ->. cbv zeta. rewrite print_table_eq.
  destruct (plot opts); [|done].
  by rewrite !append_assoc.
Qed.

(** Nothing is on [std::cout] unless the run ends with code 0. *)
Lemma main_no_partial_output o args :
  ended (main o args) ≠ exited 0 → cout (main o args) = EmptyString.
Proof.
  unfold main.
  destruct (parse_args _ args) as [opts| |e]; [|done..].
  destruct (sched_getaffinity o) as [err|set]; [done|].
  destruct (measure _ _ _) as [e|st]; [done|].
  destruct (print_table _ _). simpl. congruence.
Qed.

End Runs.

Section Diagonal.

Lemma elem_of_cells (n i j : Z) : (i, j) ∈ cells n ↔ 0 ≤ i < n ∧ 0 ≤ j < n.
Proof.
  unfold cells. rewrite list_elem_of_bind. split.
  - intros (a & (b & [= -> ->] & Hb%elem_of_seqZ)%list_elem_of_fmap & Ha%elem_of_seqZ).
    lia.
  - intros [Hi Hj]. exists i. rewrite list_elem_of_fmap, !elem_of_seqZ.
    split; [|lia]. exists j. rewrite elem_of_seqZ. split; [done | lia].
Qed.

End Diagonal.

(** ** The output *)

(** C8. For every list of enumerated cores the table starts with the header
    row: CPU right-justified in a field of four characters, then every core
    id, in the order of the list, right-justified in a field of four
    characters after one space; one data row per core follows, with the core
    id and then its latency in whole nanoseconds to every enumerated core in
    the order of the columns. For the cores [0; 1] the header line is
    [ CPU    0    1] and two data rows follow. *)
Theorem table_layout (cpus : list Z) (data : matrix) (out : string) :
  (print_table cpus (out, data)).1
    = out +:+ header_row cpus +:+ join (imap (data_row cpus data) cpus)
  ∧ header_row cpus
    = setw 4 "CPU" +:+ join ((λ c, " " +:+ setw 4 (show c)) <$> cpus) +:+ nl
  ∧ (∀ (i : nat) (c : Z),
       data_row cpus data i c
       = setw 4 (show c)
         +:+ join ((λ j : nat,
                      " " +:+ setw 4 (show (default 0 (data !! (Z.of_nat i, Z.of_nat j)))))
                     <$> seq 0 (length cpus))
         +:+ nl)
  ∧ (∀ s, setw 4 s = spaces (4 - String.length s) +:+ s
          ∧ String.length (setw 4 s) = Nat.max 4 (String.length s))
  ∧ (print_table [0; 1] (out, data)).1
    = out +:+ " CPU    0    1" +:+ nl
      +:+ ("   0" +:+ " " +:+ setw 4 (show (latency data 0 0))
                  +:+ " " +:+ setw 4 (show (latency data 0 1)) +:+ nl)
      +:+ ("   1" +:+ " " +:+ setw 4 (show (latency data 1 0))
                  +:+ " " +:+ setw 4 (show (latency data 1 1)) +:+ nl).
Proof.
  split_and!.
  - by rewrite print_table_eq.
  - reflexivity.
  - reflexivity.
  - intros s. split; [reflexivity | apply length_setw].
  - rewrite print_table_eq. unfold table, header_row, data_row, join, column, fst.
    cbn [imap fmap list_fmap map foldr seq length compose].
    rewrite !append_assoc, !append_nil_r. reflexivity.
Qed.

(** C9. After all pairs are measured no diagonal entry is set, so for every
    enumerated core the cell of its own column shows 0: the table prints the
    latency 0 there, and after printing the matrix holds the entry
    [(i, i)] with value 0, while the entries it had are unchanged. *)
Theorem diagonal_prints_zero (o : os) (nsamples : Z) (cpus : list Z)
    (st : probe_state) (out : string) (i : Z) :
  measure o nsamples cpus = inr st →
  0 ≤ i < Z.of_nat (length cpus) →
  data st !! (i, i) = None
  ∧ print_cell i i (out, data st) = (out +:+ " " +:+ "   0", <[(i, i) := 0]> (data st))
  ∧ latency (data st) i i = 0
  ∧ (print_table cpus (out, data st)).1 = out +:+ table cpus (data st)
  ∧ (print_table cpus (out, data st)).2 !! (i, i) = Some 0
  ∧ (∀ key v, data st !! key = Some v →
              (print_table cpus (out, data st)).2 !! key = Some v).
Proof.
  intros Hrun Hi.
  assert (data st !! (i, i) = None) as Hnone.
  { apply eq_None_not_Some.
    rewrite (measure_keys o nsamples cpus st i i Hrun). lia. }
  split_and!.
  - exact Hnone.
  - unfold print_cell, subscript. by rewrite Hnone.
  - unfold latency. by rewrite Hnone.
  - by rewrite print_table_eq.
  - rewrite print_table_eq. simpl. rewrite touch_lookup, Hnone.
    rewrite decide_True; [done|]. apply elem_of_cells. lia.
  - intros key v Hkey. rewrite print_table_eq. simpl.
    by rewrite touch_lookup, Hkey.
Qed.

Lemma diagonal_prints_zero_witness :
  ∃ st, measure Examples.machine 2 [2; 4; 7] = inr st
        ∧ data st !! (1, 1) = None
        ∧ (print_table [2; 4; 7] (EmptyString, data st)).2 !! (1, 1) = Some 0.
Proof.
  assert (∃ st, measure Examples.machine 2 [2; 4; 7] = inr st) as [st Hst]
    by (eexists; vm_compute; reflexivity).
  exists st. split; [exact Hst|].
  destruct (diagonal_prints_zero Examples.machine 2 [2; 4; 7] st EmptyString 1 Hst
              ltac:(simpl; lia)) as (Hnone & _ & _ & _ & Hzero & _).
  split; [exact Hnone | exact Hzero].
Defined.

(** C5, as the program has it. With [-p] the output of a run that measured
    is, for every number of enumerated cores: four directive lines (title,
    x label, y label and colour-bar label), the line [$data << EOD], the
    table, the line [EOD], and one line with the plot command. *)
Theorem plot_output_layout (o : os) (args : list string) (opts : options)
    (set : cpu_set_t) (st : probe_state) :
  parse_args (POSIXLY_CORRECT o) args = parsed opts →
  plot opts = true →
  sched_getaffinity o = inr set →
  measure o (nsamples opts) (enumerate set (begin_core opts) (end_core opts)) = inr st →
  cout (main o args)
    = join plot_directives
      +:+ data_begin
      +:+ table (enumerate set (begin_core opts) (end_core opts)) (data st)
      +:+ data_end
      +:+ plot_command
  ∧ length plot_directives = 4%nat
  ∧ forallb one_line plot_directives = true
  ∧ data_begin = "$data << EOD" +:+ nl ∧ one_line data_begin = true
  ∧ data_end = "EOD" +:+ nl ∧ one_line data_end = true
  ∧ one_line plot_command = true.
Proof.
  intros Hparse Hplot Hset Hrun.
  rewrite (main_measured o args opts set st Hparse Hset Hrun), Hplot.
  split_and!; [reflexivity | reflexivity | by vm_compute..].
Qed.

Lemma plot_output_layout_witness :
  ∃ opts st,
    parse_args false ["-p"; "-s"; "2"] = parsed opts
    ∧ measure Examples.machine (nsamples opts)
        (enumerate (cpu_set_of [2; 4; 7]) (begin_core opts) (end_core opts))
      = inr st
    ∧ cout (main Examples.machine ["-p"; "-s"; "2"])
      = join plot_directives +:+ data_begin
        +:+ table (enumerate (cpu_set_of [2; 4; 7]) (begin_core opts) (end_core opts))
              (data st)
        +:+ data_end +:+ plot_command.
Proof.
  assert (∃ opts st,
            parse_args false ["-p"; "-s"; "2"] = parsed opts
            ∧ plot opts = true
            ∧ measure Examples.machine (nsamples opts)
                (enumerate (cpu_set_of [2; 4; 7]) (begin_core opts) (end_core opts))
              = inr st) as (opts & st & Hparse & Hplot & Hrun)
    by (do 2 eexists; split_and!; vm_compute; reflexivity).
  exists opts, st. split_and!; [exact Hparse | exact Hrun |].
  exact (proj1 (plot_output_layout Examples.machine ["-p"; "-s"; "2"] opts
                  (cpu_set_of [2; 4; 7]) st Hparse Hplot eq_refl Hrun)).
Defined.

(** C5, as stated, fails: the fourth line of the output of [c2clat -p] is
    the colour-bar label, a fourth directive, and [$data << EOD] is the
    fifth line. *)
Lemma plot_output_has_four_directives :
  lines (cout (main Examples.machine ["-p"])) !! 3%nat
    = Some ("set cblabel " +:+ dq +:+ "Latency (ns)" +:+ dq)
  ∧ lines (cout (main Examples.machine ["-p"])) !! 4%nat = Some "$data << EOD"
  ∧ ¬ three_directives_then_data (cout (main Examples.machine ["-p"])).
Proof.
  assert (∃ ls, lines (cout (main Examples.machine ["-p"])) = ls
                ∧ ls !! 3%nat = Some ("set cblabel " +:+ dq +:+ "Latency (ns)" +:+ dq)
                ∧ ls !! 4%nat = Some "$data << EOD")
    as (ls & Hls & H3 & H4)
    by (eexists; split_and!; [vm_compute; reflexivity | reflexivity..]).
  rewrite Hls. split_and!; [exact H3 | exact H4 |].
  intros (d1 & d2 & d3 & rest & Heq). rewrite Hls in Heq. rewrite Heq in H3.
  simpl in H3. by vm_compute in H3.
Qed.

(** ** The command line *)

Section CommandLine.

Implicit Types (o : os) (args : list string) (opts : options).

Lemma parse_args_eq (posix : bool) args :
  parse_args posix args =
    match option_loop default_options (getopt posix optstring args).1 with
    | parsed opts => if (getopt posix optstring args).2 then usage else parsed opts
    | stop => stop
    end.
Proof. unfold parse_args. by destruct (getopt posix optstring args). Qed.

Lemma parse_args_parsed (posix : bool) args opts :
  parse_args posix args = parsed opts →
  option_loop default_options (getopt posix optstring args).1 = parsed opts.
Proof.
  rewrite parse_args_eq.
  destruct (option_loop _ _) as [opts'| |]; [|done..].
  by destruct (getopt posix optstring args).2.
Qed.

End CommandLine.

(** C6, as the program has it. The sample count defaults to 1000, the lower
    bound of the range to 0 and the upper bound to [CPU_SETSIZE], the size of
    a [cpu_set_t], which is one more than the greatest addressable core
    index; every [-b] value is raised to at least 0 and every [-e] value is
    capped at [CPU_SETSIZE], so whenever the command line is accepted the
    range starts at 0 or above and ends at [CPU_SETSIZE] or below: the
    enumeration tests no index beyond [CPU_SETSIZE], the index [CPU_SETSIZE]
    itself is never set, and no core beyond [CPU_SETSIZE - 1] is
    enumerated. *)
Theorem cli_defaults_and_clamping (posix : bool) (args : list string) (opts : options) :
  parse_args posix args = parsed opts →
  (nsamples default_options = 1000
   ∧ begin_core default_options = 0
   ∧ end_core default_options = CPU_SETSIZE
   ∧ parse_args posix [] = parsed default_options)
  ∧ (((∀ a, opt "s" a ∉ (getopt posix optstring args).1) → nsamples opts = 1000)
     ∧ ((∀ a, opt "b" a ∉ (getopt posix optstring args).1) → begin_core opts = 0)
     ∧ ((∀ a, opt "e" a ∉ (getopt posix optstring args).1) → end_core opts = CPU_SETSIZE))
  ∧ (∀ o optarg o', handle_opt o (opt "b" optarg) = parsed o' →
       ∃ v, stoi optarg = inr v ∧ begin_core o' = Z.max v 0 ∧ 0 ≤ begin_core o')
  ∧ (∀ o optarg o', handle_opt o (opt "e" optarg) = parsed o' →
       ∃ v, stoi optarg = inr v ∧ end_core o' = Z.min v CPU_SETSIZE
            ∧ end_core o' ≤ CPU_SETSIZE)
  ∧ (∀ before optarg after,
       (getopt posix optstring args).1 = before ++ opt "b" optarg :: after →
       (∀ a, opt "b" a ∉ after) →
       ∃ v, stoi optarg = inr v ∧ begin_core opts = Z.max v 0)
  ∧ (∀ before optarg after,
       (getopt posix optstring args).1 = before ++ opt "e" optarg :: after →
       (∀ a, opt "e" a ∉ after) →
       ∃ v, stoi optarg = inr v ∧ end_core opts = Z.min v CPU_SETSIZE)
  ∧ 0 ≤ begin_core opts
  ∧ end_core opts ≤ CPU_SETSIZE
  ∧ (∀ i, i ∈ seqZ (begin_core opts) (end_core opts - begin_core opts + 1) →
          0 ≤ i ≤ CPU_SETSIZE)
  ∧ (∀ set, CPU_ISSET CPU_SETSIZE set = false)
  ∧ (∀ set c, c ∈ enumerate set (begin_core opts) (end_core opts) →
              0 ≤ c ≤ CPU_SETSIZE - 1).
Proof.
  intros Hparse%parse_args_parsed.
  destruct (option_loop_bounds _ _ _ Hparse) as [Hb He]; [done..|].
  destruct (option_loop_unset _ _ _ Hparse) as (Hs & Hb' & He' & _).
  split_and!; try done.
  - intros o optarg o'. simpl. destruct (stoi optarg) as [|v]; [done|].
    intros [= <-]. exists v. simpl. split_and!; [done..|lia].
  - intros o optarg o'. simpl. destruct (stoi optarg) as [|v]; [done|].
    intros [= <-]. exists v. simpl. split_and!; [done..|lia].
  - intros before optarg after Hrs. rewrite Hrs in Hparse.
    apply (option_loop_last_b _ _ _ _ _ Hparse).
  - intros before optarg after Hrs. rewrite Hrs in Hparse.
    apply (option_loop_last_e _ _ _ _ _ Hparse).
  - intros i Hi%elem_of_seqZ. lia.
  - intros set c [Hset _]%elem_of_enumerate.
    unfold CPU_ISSET in Hset. apply andb_prop in Hset as [Hc%bool_decide_eq_true _].
    lia.
Qed.

Lemma cli_defaults_and_clamping_witness :
  parse_args false ["-b"; "-3"; "-e"; "5000"]
    = parsed {| nsamples := 1000; begin_core := 0; end_core := CPU_SETSIZE;
                plot := false |}
  ∧ 0 ≤ 0 ∧ CPU_SETSIZE ≤ CPU_SETSIZE.
Proof.
  assert (parse_args false ["-b"; "-3"; "-e"; "5000"]
          = parsed {| nsamples := 1000; begin_core := 0; end_core := CPU_SETSIZE;
                      plot := false |}) as Hparse by (vm_compute; reflexivity).
  split; [exact Hparse|].
  destruct (cli_defaults_and_clamping false ["-b"; "-3"; "-e"; "5000"] _ Hparse)
    as (_ & _ & _ & _ & _ & _ & Hb & He & _).
  split; [exact Hb | exact He].
Defined.

(** C6, as stated, fails: the default of the upper bound and the cap of [-e]
    are [CPU_SETSIZE] = 1024, one beyond the greatest addressable core index
    1023, and the enumeration tests the index 1024. With [-e 5000], and with
    no option at all, the range is not capped at the greatest addressable
    index. *)
Lemma upper_bound_beyond_addressable_index :
  max_addressable_core = 1023
  ∧ (∀ set c, CPU_ISSET c set = true → c ≤ max_addressable_core)
  ∧ CPU_SET (max_addressable_core + 1) CPU_ZERO = CPU_ZERO
  ∧ parse_args false ["-e"; "5000"]
    = parsed {| nsamples := 1000; begin_core := 0; end_core := 1024; plot := false |}
  ∧ parse_args false []
    = parsed {| nsamples := 1000; begin_core := 0; end_core := 1024; plot := false |}
  ∧ 1024 ∈ seqZ 0 (1024 - 0 + 1)
  ∧ ¬ capped_at_addressable
        {| nsamples := 1000; begin_core := 0; end_core := 1024; plot := false |}
  ∧ ¬ (∀ posix args opts,
         parse_args posix args = parsed opts → capped_at_addressable opts).
Proof.
  assert (parse_args false ["-e"; "5000"]
          = parsed {| nsamples := 1000; begin_core := 0; end_core := 1024;
                      plot := false |}) as Hparse by (vm_compute; reflexivity).
  assert (¬ capped_at_addressable
              {| nsamples := 1000; begin_core := 0; end_core := 1024;
                 plot := false |}) as Hcap.
  { intros [Hend _]. unfold max_addressable_core, CPU_SETSIZE in Hend.
    simpl in Hend. lia. }
  split_and!.
  - reflexivity.
  - intros set c Hset. unfold CPU_ISSET in Hset.
    apply andb_prop in Hset as [Hc%bool_decide_eq_true _].
    unfold max_addressable_core. lia.
  - reflexivity.
  - exact Hparse.
  - vm_compute. reflexivity.
  - apply elem_of_seqZ. lia.
  - exact Hcap.
  - intros Hall. exact (Hcap (Hall false ["-e"; "5000"] _ Hparse)).
Qed.

(** C7, as the program has it. When [getopt] rejects a flag (it is not
    recognized, or its argument is missing) or the command line has a stray
    positional argument, and the values of the [-s], [-b] and [-e] options
    read before that point are integers, the program prints the usage text
    on the error stream and exits with code 1 without printing a table.
    When the affinity query fails, it prints the error of the operating
    system and exits with code 1. A run that enumerates and measures exits
    with code 0, and only such a run prints anything on the output. *)
Theorem usage_affinity_and_exit_codes (o : os) (args : list string) :
  ((∃ before after,
       (getopt (POSIXLY_CORRECT o) optstring args).1 = before ++ opt_error :: after
       ∧ Forall (λ r, r ≠ opt_error ∧ throws r = None) before)
    ∨ (Forall (λ r, r ≠ opt_error ∧ throws r = None)
         (getopt (POSIXLY_CORRECT o) optstring args).1
       ∧ (getopt (POSIXLY_CORRECT o) optstring args).2 = true) →
   main o args = usage_run)
  ∧ (∀ opts err,
       parse_args (POSIXLY_CORRECT o) args = parsed opts →
       sched_getaffinity o = inl err →
       main o args = {| ended := exited 1; cout := EmptyString;
                        cerr := perror "sched_getaffinity" err |})
  ∧ (∀ opts set,
       parse_args (POSIXLY_CORRECT o) args = parsed opts →
       sched_getaffinity o = inr set →
       pinnable o (enumerate set (begin_core opts) (end_core opts)) →
       ended (main o args) = exited 0 ∧ cerr (main o args) = EmptyString)
  ∧ (ended (main o args) ≠ exited 0 → cout (main o args) = EmptyString).
Proof.
  split_and!.
  - intros Hbad. apply main_usage. rewrite parse_args_eq.
    destruct Hbad as [(before & after & Hrs & Hok)|[Hok Hrest]].
    + apply (getopt_prefix_accepted _ _ _ _ Hrs) in Hok.
      by rewrite Hrs, option_loop_usage.
    + apply (getopt_prefix_accepted (POSIXLY_CORRECT o) args _ []) in Hok;
        [|by rewrite app_nil_r].
      destruct (option_loop_accepted default_options _ Hok) as [opts ->].
      by rewrite Hrest.
  - intros opts err. apply main_affinity_failed.
  - intros opts set Hparse Hset Hpin.
    destruct (measure_pinnable o (nsamples opts) _ Hpin) as [st Hst].
    by rewrite (main_measured o args opts set st Hparse Hset Hst).
  - apply main_no_partial_output.
Qed.

Lemma usage_affinity_and_exit_codes_witness :
  main Examples.machine ["-p"; "-x"] = usage_run
  ∧ main Examples.machine ["-s"; "5"; "core"] = usage_run
  ∧ main Examples.machine_without_affinity ["-s"; "5"]
    = {| ended := exited 1; cout := EmptyString;
         cerr := perror "sched_getaffinity" "Operation not permitted" |}
  ∧ ended (main Examples.machine ["-s"; "5"]) = exited 0.
Proof.
  split_and!.
  - apply (proj1 (usage_affinity_and_exit_codes Examples.machine ["-p"; "-x"])).
    left. exists [opt "p" EmptyString], []. split; [reflexivity|].
    by repeat apply Forall_cons_2; [..|apply Forall_nil_2].
  - apply (proj1 (usage_affinity_and_exit_codes Examples.machine ["-s"; "5"; "core"])).
    right. split; [|reflexivity].
    change ((getopt (POSIXLY_CORRECT Examples.machine) optstring ["-s"; "5"; "core"]).1)
      with [opt "s" "5"].
    by repeat apply Forall_cons_2; [..|apply Forall_nil_2].
  - apply (proj1 (proj2 (usage_affinity_and_exit_codes
                           Examples.machine_without_affinity ["-s"; "5"]))
             {| nsamples := 5; begin_core := 0; end_core := CPU_SETSIZE;
                plot := false |});
      reflexivity.
  - apply (proj1 (proj2 (proj2 (usage_affinity_and_exit_codes
                                  Examples.machine ["-s"; "5"])))
             {| nsamples := 5; begin_core := 0; end_core := CPU_SETSIZE;
                plot := false |} (cpu_set_of [2; 4; 7]));
      [reflexivity | reflexivity | by intros c _].
Defined.

(** C7, as stated, fails on [c2clat -s foo -x]: the command line has the
    unrecognized flag [-x], but [std::stoi] throws on [foo] before [getopt]
    reaches it; the program ends by the uncaught exception, without the usage
    text and without exit code 1. *)
Lemma unrecognized_flag_after_bad_value :
  invalid_usage false ["-s"; "foo"; "-x"]
  ∧ main Examples.machine ["-s"; "foo"; "-x"]
    = {| ended := terminated invalid_argument; cout := EmptyString;
         cerr := EmptyString |}
  ∧ main Examples.machine ["-s"; "foo"; "-x"] ≠ usage_run.
Proof.
  split_and!.
  - left.
    change ((getopt false optstring ["-s"; "foo"; "-x"]).1)
      with [opt "s" "foo"; opt_error].
    rewrite !elem_of_cons. auto.
  - by vm_compute.
  - by vm_compute.
Qed.

(** C10, as the program has it. When the option loop reaches a [-s], [-b] or
    [-e] option whose value [std::stoi] does not parse (the options before it
    were accepted), the exception is not caught: the program terminates
    abnormally, having printed neither the usage text nor anything else,
    which is not the run of the unrecognized-flag path. *)
Theorem unparseable_value_terminates (o : os) (args : list string)
    (before after : list getopt_result) (r : getopt_result) (e : exception) :
  (getopt (POSIXLY_CORRECT o) optstring args).1 = before ++ r :: after →
  Forall (λ r, r ≠ opt_error ∧ throws r = None) before →
  throws r = Some e →
  main o args = {| ended := terminated e; cout := EmptyString; cerr := EmptyString |}
  ∧ main o args ≠ usage_run
  ∧ cerr (main o args) ≠ usage_text
  ∧ (∃ c optarg, r = opt c optarg ∧ c ∈ ["s"; "b"; "e"]%char ∧ stoi optarg = inl e).
Proof.
  intros Hrs Hok Hthrows.
  apply (getopt_prefix_accepted _ _ _ _ Hrs) in Hok.
  assert (main o args
          = {| ended := terminated e; cout := EmptyString; cerr := EmptyString |})
    as Hmain.
  { apply main_thrown. rewrite parse_args_eq, Hrs.
    by rewrite (option_loop_thrown _ before r after e Hok Hthrows). }
  rewrite Hmain. split_and!; [done..|].
  destruct r as [c optarg|]; [|done]. exists c, optarg.
  unfold throws in Hthrows. case_bool_decide; [|done].
  destruct (stoi optarg); [|done]. by injection Hthrows as ->.
Qed.

Lemma unparseable_value_terminates_witness :
  main Examples.machine ["-p"; "-s"; "foo"; "-x"]
    = {| ended := terminated invalid_argument; cout := EmptyString;
         cerr := EmptyString |}
  ∧ main Examples.machine ["-e"; "99999999999"]
    = {| ended := terminated out_of_range; cout := EmptyString;
         cerr := EmptyString |}.
Proof.
  split.
  - apply (unparseable_value_terminates Examples.machine
             ["-p"; "-s"; "foo"; "-x"] [opt "p" EmptyString] [opt_error]
             (opt "s" "foo") invalid_argument);
      [reflexivity | by repeat apply Forall_cons_2; [..|apply Forall_nil_2]
      | reflexivity].
  - apply (unparseable_value_terminates Examples.machine
             ["-e"; "99999999999"] [] [] (opt "e" "99999999999") out_of_range);
      [reflexivity | apply Forall_nil_2 | reflexivity].
Defined.

(** C10, as stated, fails on [c2clat -x -s foo]: the value of [-s] does not
    parse, but [getopt] rejects [-x] first, and the program prints the usage
    text and exits with code 1. *)
Lemma bad_value_after_unrecognized_flag :
  unparseable_value false ["-x"; "-s"; "foo"]
  ∧ stoi "foo" = inl invalid_argument
  ∧ main Examples.machine ["-x"; "-s"; "foo"] = usage_run
  ∧ cerr (main Examples.machine ["-x"; "-s"; "foo"]) = usage_text
  ∧ ended (main Examples.machine ["-x"; "-s"; "foo"]) = exited 1.
Proof.
  split_and!; [|vm_compute; reflexivity..].
  exists (opt "s" "foo"), invalid_argument. split; [|vm_compute; reflexivity].
  change ((getopt false optstring ["-x"; "-s"; "foo"]).1)
    with [opt_error; opt "s" "foo"].
  rewrite !elem_of_cons. auto.
Qed.

(** ** The handshake *)

Section RoundTrip.

Context (o : os) (k : nat).

Lemma round_trip_nonpos (m : Z) : m ≤ 0 → round_trip o k m = nanoseconds_max.
Proof.
  intros Hm. unfold round_trip, durations.
  by replace (Z.to_nat m) with 0%nat by lia.
Qed.

Lemma round_trip_succ (m : Z) :
  0 ≤ m →
  round_trip o k (m + 1)
  = Z.min (round_trip o k m)
      (steady_clock_now o (k + 2 * Z.to_nat m + 1)%nat
       - steady_clock_now o (k + 2 * Z.to_nat m)%nat).
Proof.
  intros Hm. unfold round_trip, durations.
  replace (Z.to_nat (m + 1)) with (S (Z.to_nat m)) by lia.
  by rewrite seq_S, fmap_app, foldl_app.
Qed.

End RoundTrip.

Ltac handshake_loops :=
  repeat
    first
      [ progress unfold Handshake.ctl_outer, Handshake.ctl_inner, Handshake.rsp_outer,
          Handshake.rsp_inner, Handshake.last_seq in *
      | match goal with
        | |- context [?a <? ?b] => destruct (Z.ltb_spec a b)
        | |- context [?a =? ?b] => destruct (Z.eqb_spec a b)
        | H : context [?a <? ?b] |- _ => destruct (Z.ltb_spec a b)
        | H : context [?a =? ?b] |- _ => destruct (Z.eqb_spec a b)
        end ].

Ltac simple_goal :=
  first
    [ done
    | lia
    | congruence
    | by intros ? [= <-]; auto
    | by intros; congruence
    | by left
    | by right
    | by rewrite round_trip_nonpos by lia
    | by (rewrite round_trip_succ by lia; f_equal; f_equal; f_equal; lia)
    | by (f_equal; lia)
    | by (intros _; match goal with H : _ → ?P |- ?P => apply H end)
    | by (exfalso; simplify_eq; lia)
    | tauto
    | by intuition (subst; auto with lia) ].

Ltac solve_invariant :=
  handshake_loops; simpl in *; split_and!; try simple_goal.

Ltac split_cases :=
  repeat match goal with
         | H : _ ∧ _ |- _ => destruct H
         | H : _ ∨ _ |- _ => destruct H
         end;
  simplify_eq.

Section HandshakeInvariant.

Import Handshake.

Context (o : os) (nsamples ci cj : Z) (k : nat).

Lemma invariant_init : invariant o nsamples ci cj k (init k).
Proof. unfold invariant, init. solve_invariant. Qed.

Lemma invariant_step_controller (st : state) :
  exit_message st = None →
  invariant o nsamples ci cj k st →
  invariant o nsamples ci cj k (step_controller o nsamples cj st).
Proof.
  destruct st as [s1 s2 c r n t1 rt ex]. unfold invariant, step_controller.
  simpl. intros -> (Hcj & Hci & Hex & Hpc).
  destruct c as [|m|m|m|m n'|m n'|m| |]; simpl in *.
  - destruct (pinThread o cj) as [e|[]] eqn:Hpin; simpl.
    + solve_invariant.
    + destruct Hpc as (-> & -> & Hr & -> & ->).
      solve_invariant.
      all: destruct Hr as [Hr|Hr]; rewrite Hr in *; handshake_loops; simple_goal.
  - destruct Hpc as (Hm & Hs1 & Hs2 & Hr & Hn & Hrt). solve_invariant.
  - destruct Hpc as (Hm & Hs1 & Hs2 & Hr & Hn & Hrt). solve_invariant.
  - destruct Hpc as (Hm & Hs1 & Hs2 & Hr & Hn & Hrt). solve_invariant.
  - destruct Hpc as (Hm & Hn' & Hs1 & Hs2 & Hr & Hn & Ht1 & Hrt). solve_invariant.
  - destruct Hpc as (Hm & Hn' & Hs1 & Hr & Hn & Ht1 & Hrt).
    destruct (Z.eqb_spec s2 n') as [->|Hne]; simpl.
    + destruct Hr as [[? _]|[_ Hr]]; [lia|]. rewrite Hr. solve_invariant.
    + solve_invariant.
  - destruct Hpc as (Hm & Hs1 & Hs2 & Hr & Hn & Ht1 & Hrt). rewrite Hr.
    solve_invariant.
    + rewrite round_trip_succ by lia. subst. f_equal.
      all: try (f_equal; f_equal; lia).
    + replace nsamples with (m + 1) by lia.
      rewrite round_trip_succ by lia. subst. f_equal.
      all: try (f_equal; f_equal; lia).
  - destruct Hpc as (Hs1 & Hs2 & Hr & Hn & Hrt). destruct r; solve_invariant.
  - solve_invariant.
Qed.

Lemma invariant_step_responder (st : state) :
  exit_message st = None →
  invariant o nsamples ci cj k st →
  invariant o nsamples ci cj k (step_responder o nsamples ci st).
Proof.
  destruct st as [s1 s2 c r n t1 rt ex]. unfold invariant, step_responder.
  simpl. intros -> (Hcj & Hci & Hex & Hpc).
  destruct r as [|m n'|m n'|]; simpl in *.
  - destruct (pinThread o ci) as [e|[]] eqn:Hpin; simpl.
    + solve_invariant.
    + destruct c; split_cases; solve_invariant.
  - destruct (Z.eqb_spec s1 n') as [->|Hne]; simpl; [|solve_invariant].
    destruct c; split_cases; solve_invariant.
  - destruct c; split_cases; solve_invariant.
  - solve_invariant.
Qed.

Lemma invariant_step (st : state) (t : thread) :
  invariant o nsamples ci cj k st →
  invariant o nsamples ci cj k (step o nsamples ci cj st t).
Proof.
  intros Hinv. unfold step. destruct (exit_message st) eqn:Hex; [done|].
  destruct t; [by apply invariant_step_controller
              | by apply invariant_step_responder].
Qed.

Lemma invariant_foldl (st : state) (schedule : list thread) :
  invariant o nsamples ci cj k st →
  invariant o nsamples ci cj k (foldl (step o nsamples ci cj) st schedule).
Proof.
  revert st. induction schedule as [|t schedule IH]; intros st Hinv; [done|].
  simpl. by apply IH, invariant_step.
Qed.

Lemma invariant_run (schedule : list thread) :
  invariant o nsamples ci cj k (run o nsamples ci cj k schedule).
Proof. apply invariant_foldl, invariant_init. Qed.

(** In a state that is not finished one of the two threads can move. *)
Lemma invariant_progress (st : state) :
  invariant o nsamples ci cj k st →
  ¬ finished st →
  step o nsamples ci cj st controlling ≠ st
  ∨ step o nsamples ci cj st responding ≠ st.
Proof.
  destruct st as [s1 s2 c r n t1 rt ex]. unfold invariant, finished, step.
  simpl. intros (Hcj & Hci & Hex & Hpc) Hfin.
  destruct ex as [e|]; [destruct Hfin; right; eauto|].
  assert (c ≠ c_done) as Hc by tauto. clear Hfin.
  unfold step_controller, step_responder. simpl.
  destruct c as [|m|m|m|m n'|m n'|m| |]; simpl in *; try done.
  - left. destruct (pinThread o cj) as [e|[]]; [done|]. handshake_loops; done.
  - by left.
  - by left.
  - left. handshake_loops; simpl; intros [=]; lia.
  - by left.
  - destruct Hpc as (Hm & Hn' & -> & Hr & _).
    destruct Hr as [[-> Hr]|[-> Hr]].
    + right. destruct Hr as [->|[->|(-> & -> & ->)]].
      * by rewrite Z.eqb_refl.
      * handshake_loops; simpl; intros [=]; lia.
      * destruct (pinThread o ci) as [e|[]]; [done|]. handshake_loops; done.
    + left. rewrite Z.eqb_refl. handshake_loops; done.
  - left. handshake_loops; simpl; intros [=]; lia.
  - destruct Hpc as (_ & _ & [->|[Hn ->]] & _).
    + by left.
    + right. destruct (pinThread o ci) as [e|[]]; [done|]. handshake_loops; done.
Qed.

(** Every step that changes the state takes one from the steps that are
    left, or ends the process. *)
Lemma invariant_remaining (st : state) (t : thread) :
  invariant o nsamples ci cj k st →
  step o nsamples ci cj st t ≠ st →
  0 ≤ remaining nsamples (step o nsamples ci cj st t)
  ∧ match exit_message (step o nsamples ci cj st t) with
    | Some _ =>
        remaining nsamples (step o nsamples ci cj st t) < remaining nsamples st
    | None =>
        remaining nsamples (step o nsamples ci cj st t) = remaining nsamples st - 1
    end.
Proof.
  destruct st as [s1 s2 c r n t1 rt ex]. unfold invariant, step, remaining.
  simpl. intros (Hcj & Hci & Hex & Hpc).
  destruct ex as [e|]; [done|].
  destruct t; unfold step_controller, step_responder; simpl.
  - destruct c as [|m|m|m|m n'|m n'|m| |]; simpl in *; try done.
    + destruct (pinThread o cj) as [e|[]]; simpl; intros _.
      * destruct Hpc as (_ & _ & [->| ->] & _); handshake_loops; simpl; lia.
      * destruct Hpc as (_ & _ & [->| ->] & _); handshake_loops; simpl; lia.
    + intros _. split_cases; handshake_loops; simplify_eq; simpl; lia.
    + intros _. split_cases; handshake_loops; simplify_eq; simpl; lia.
    + intros _. split_cases; handshake_loops; simplify_eq; simpl; lia.
    + intros _. split_cases; handshake_loops; simplify_eq; simpl; lia.
    + destruct (Z.eqb_spec s2 n'); [|done]. intros _.
      split_cases; handshake_loops; simplify_eq; simpl; lia.
    + intros _. split_cases; handshake_loops; simplify_eq; simpl; lia.
    + destruct r; try done; intros _; simpl; lia.
  - destruct r as [|m n'|m n'|]; simpl in *; try done.
    + destruct (pinThread o ci) as [e|[]]; simpl; intros _.
      * destruct c; split_cases; handshake_loops; simplify_eq; simpl; lia.
      * destruct c; split_cases; handshake_loops; simplify_eq; simpl; lia.
    + destruct (Z.eqb_spec s1 n'); [|done]. intros _.
      destruct c; split_cases; handshake_loops; simplify_eq; simpl; lia.
    + intros _. destruct c; split_cases; handshake_loops; simplify_eq; simpl; lia.
Qed.

Lemma step_exited (st : state) (schedule : list thread) :
  is_Some (exit_message st) → foldl (step o nsamples ci cj) st schedule = st.
Proof.
  intros [e He]. induction schedule as [|t schedule IH]; [done|].
  simpl. unfold step at 2. by rewrite He.
Qed.

Lemma step_keeps_exit (st : state) (t : thread) :
  is_Some (exit_message st) →
  is_Some (exit_message (step o nsamples ci cj st t)).
Proof. intros [e He]. unfold step. rewrite He. by rewrite He. Qed.

Lemma moves_remaining (st : state) (schedule : list thread) :
  invariant o nsamples ci cj k st →
  0 ≤ remaining nsamples st →
  0 ≤ remaining nsamples (foldl (step o nsamples ci cj) st schedule)
  ∧ Z.of_nat (moves o nsamples ci cj st schedule)
    ≤ remaining nsamples st
      - remaining nsamples (foldl (step o nsamples ci cj) st schedule)
  ∧ (exit_message (foldl (step o nsamples ci cj) st schedule) = None →
     Z.of_nat (moves o nsamples ci cj st schedule)
     = remaining nsamples st
       - remaining nsamples (foldl (step o nsamples ci cj) st schedule)).
Proof.
  revert st. induction schedule as [|t schedule IH]; intros st Hinv Hpos.
  { simpl. lia. }
  simpl. destruct (decide (step o nsamples ci cj st t = st)) as [Heq|Hne].
  - rewrite Heq. destruct (IH st Hinv Hpos) as (H1 & H2 & H3).
    split_and!; [done | lia | intros H%H3; lia].
  - destruct (invariant_remaining st t Hinv Hne) as [Hpos' Hdec].
    destruct (IH _ (invariant_step st t Hinv) Hpos') as (H1 & H2 & H3).
    destruct (exit_message (step o nsamples ci cj st t)) as [e|] eqn:Hex.
    + split_and!; [done | lia |]. intros Hnone.
      rewrite step_exited in Hnone by (by rewrite Hex). congruence.
    + split_and!; [done | lia | intros H%H3; lia].
Qed.

(** From every state the threads reach, some schedule ends the
    measurement. *)
Lemma invariant_can_finish (st : state) :
  invariant o nsamples ci cj k st →
  0 ≤ remaining nsamples st →
  ∃ schedule, finished (foldl (step o nsamples ci cj) st schedule).
Proof.
  remember (Z.to_nat (remaining nsamples st)) as fuel eqn:Hfuel.
  revert st Hfuel. induction (lt_wf fuel) as [fuel _ IH].
  intros st -> Hinv Hpos.
  destruct (decide (ctl st = c_done)) as [Hdone|Hdone].
  { exists []. by left. }
  destruct (exit_message st) as [e|] eqn:Hex.
  { exists []. right. simpl. rewrite Hex. eauto. }
  assert (¬ finished st) as Hfin.
  { intros [?|[e He]]; [done | congruence]. }
  destruct (invariant_progress st Hinv Hfin) as [Hmove|Hmove].
  - destruct (invariant_remaining st _ Hinv Hmove) as [Hpos' Hdec].
    destruct (IH (Z.to_nat (remaining nsamples (step o nsamples ci cj st controlling))))
      with (st := step o nsamples ci cj st controlling) as [schedule Hs];
      [|done|by apply invariant_step|done|by exists (controlling :: schedule)].
    destruct (exit_message (step o nsamples ci cj st controlling)); lia.
  - destruct (invariant_remaining st _ Hinv Hmove) as [Hpos' Hdec].
    destruct (IH (Z.to_nat (remaining nsamples (step o nsamples ci cj st responding))))
      with (st := step o nsamples ci cj st responding) as [schedule Hs];
      [|done|by apply invariant_step|done|by exists (responding :: schedule)].
    destruct (exit_message (step o nsamples ci cj st responding)); lia.
Qed.

Lemma remaining_init : remaining nsamples (init k) = 3 + 404 * Z.max nsamples 0.
Proof. unfold remaining, init. simpl. lia. Qed.

End HandshakeInvariant.

(** X1. Whatever the interleaving of the two threads, they take strict
    turns: the responder stores [n] into [seq2] only while the controlling
    thread spins on that [n], with [seq1 = n] and [seq2] still [n - 1]; the
    controlling thread stores [n] into [seq1] only after [n - 1] was answered;
    the responder never is ahead of the controlling thread and never more
    than one handshake behind; both cells stay between -1 and 99. *)
Theorem handshake_turn_taking (o : os) (nsamples ci cj : Z) (k : nat)
    (schedule : list Handshake.thread) :
  let st := Handshake.run o nsamples ci cj k schedule in
  (∀ m n, Handshake.rsp st = Handshake.r_store m n →
          Handshake.ctl st = Handshake.c_spin m n
          ∧ Handshake.seq1 st = n ∧ Handshake.seq2 st = n - 1)
  ∧ (∀ m n, Handshake.ctl st = Handshake.c_store m n →
            Handshake.seq1 st = n - 1 ∧ Handshake.seq2 st = n - 1
            ∧ Handshake.answered nsamples (Handshake.rsp st) = 100 * m + n)
  ∧ Handshake.started nsamples (Handshake.ctl st) - 1
    ≤ Handshake.answered nsamples (Handshake.rsp st)
    ≤ Handshake.started nsamples (Handshake.ctl st)
  ∧ -1 ≤ Handshake.seq1 st ≤ 99 ∧ -1 ≤ Handshake.seq2 st ≤ 99.
Proof.
  intros st. pose proof (invariant_run o nsamples ci cj k schedule) as Hinv.
  fold st in Hinv. destruct st as [s1 s2 c r n t1 rt ex].
  unfold Handshake.invariant in Hinv. simpl in *.
  destruct Hinv as (_ & _ & _ & Hpc).
  split_and!.
  - intros m n' ->. destruct c; split_cases; handshake_loops; by simplify_eq.
  - intros m n' ->. split_cases; simpl; split_and!; (done || lia).
  - destruct c; split_cases; handshake_loops; simplify_eq; simpl; lia.
  - destruct c; split_cases; handshake_loops; simplify_eq; simpl; lia.
  - destruct c; split_cases; handshake_loops; simplify_eq; simpl; lia.
  - destruct c; split_cases; handshake_loops; simplify_eq; simpl; lia.
  - destruct c; split_cases; handshake_loops; simplify_eq; simpl; lia.
  - destruct c; split_cases; handshake_loops; simplify_eq; simpl; lia.
Qed.

Lemma handshake_turn_taking_witness :
  let st := Handshake.run Examples.machine 1 2 4 0
              (replicate 5 Handshake.controlling ++ replicate 2 Handshake.responding) in
  Handshake.rsp st = Handshake.r_store 0 0
  ∧ Handshake.ctl st = Handshake.c_spin 0 0
  ∧ Handshake.seq1 st = 0 ∧ Handshake.seq2 st = -1.
Proof.
  intros st.
  assert (Handshake.rsp st = Handshake.r_store 0 0) as Hrsp
    by (vm_compute; reflexivity).
  split; [exact Hrsp|].
  destruct (handshake_turn_taking Examples.machine 1 2 4 0
              (replicate 5 Handshake.controlling ++ replicate 2 Handshake.responding))
    as (Hstore & _).
  apply (Hstore 0 0 Hrsp).
Defined.

(** X2. Both readings of the clock of a sample are taken while no handshake
    is in flight: at [ts1] of the sample [m] both cells hold -1 and the
    responder has answered the [100 * m] handshakes of the earlier samples;
    at [ts2] both cells hold 99 and it has answered [100 * m + 100]. The
    timed window holds exactly 100 handshakes, whatever the interleaving. *)
Theorem handshake_timed_window (o : os) (nsamples ci cj : Z) (k : nat)
    (schedule : list Handshake.thread) (m : Z) :
  let st := Handshake.run o nsamples ci cj k schedule in
  (Handshake.ctl st = Handshake.c_ts1 m →
     Handshake.seq1 st = -1 ∧ Handshake.seq2 st = -1
     ∧ Handshake.answered nsamples (Handshake.rsp st) = 100 * m
     ∧ Handshake.calls st = (k + 2 * Z.to_nat m)%nat)
  ∧ (Handshake.ctl st = Handshake.c_ts2 m →
       Handshake.seq1 st = 99 ∧ Handshake.seq2 st = 99
       ∧ Handshake.answered nsamples (Handshake.rsp st) = 100 * m + 100
       ∧ Handshake.ts1 st = steady_clock_now o (k + 2 * Z.to_nat m)%nat
       ∧ Handshake.calls st = (k + 2 * Z.to_nat m + 1)%nat).
Proof.
  intros st. pose proof (invariant_run o nsamples ci cj k schedule) as Hinv.
  fold st in Hinv. destruct st as [s1 s2 c r n t1 rt ex].
  unfold Handshake.invariant in Hinv. simpl in *.
  destruct Hinv as (_ & _ & _ & Hpc).
  split; intros ->; split_cases; handshake_loops; simplify_eq; simpl;
    split_and!; (done || lia).
Qed.

Lemma handshake_timed_window_witness :
  let st := Handshake.run Examples.machine 1 2 4 0 (replicate 3 Handshake.controlling) in
  Handshake.ctl st = Handshake.c_ts1 0
  ∧ Handshake.seq1 st = -1 ∧ Handshake.seq2 st = -1
  ∧ Handshake.answered 1 (Handshake.rsp st) = 0.
Proof.
  intros st.
  assert (Handshake.ctl st = Handshake.c_ts1 0) as Hctl by (vm_compute; reflexivity).
  split; [exact Hctl|].
  destruct (handshake_timed_window Examples.machine 1 2 4 0
              (replicate 3 Handshake.controlling) 0) as (Hts1 & _).
  destruct (Hts1 Hctl) as (H1 & H2 & H3 & _).
  split_and!; [exact H1 | exact H2 | exact H3].
Defined.

(** X3. The handshake cannot deadlock and always ends: in every state the
    threads reach, unless the measurement is over, one of the two threads can
    move; every schedule has at most [404 * nsamples + 3] steps that change
    the state, and exactly that many when it ends with [join]; and every
    schedule can be continued to the end of the measurement. *)
Theorem handshake_terminates (o : os) (nsamples ci cj : Z) (k : nat)
    (schedule : list Handshake.thread) :
  let st := Handshake.run o nsamples ci cj k schedule in
  (¬ Handshake.finished st →
   Handshake.step o nsamples ci cj st Handshake.controlling ≠ st
   ∨ Handshake.step o nsamples ci cj st Handshake.responding ≠ st)
  ∧ Z.of_nat (Handshake.moves o nsamples ci cj (Handshake.init k) schedule)
    ≤ 404 * Z.max nsamples 0 + 3
  ∧ (Handshake.ctl st = Handshake.c_done →
     Z.of_nat (Handshake.moves o nsamples ci cj (Handshake.init k) schedule)
     = 404 * Z.max nsamples 0 + 3)
  ∧ ∃ more,
      Handshake.finished (Handshake.run o nsamples ci cj k (schedule ++ more)).
Proof.
  intros st. pose proof (invariant_run o nsamples ci cj k schedule) as Hinv.
  fold st in Hinv.
  pose proof (remaining_init nsamples k) as Hinit.
  destruct (moves_remaining o nsamples ci cj k (Handshake.init k) schedule)
    as (Hpos & Hle & Heq); [apply invariant_init | lia |].
  fold (Handshake.run o nsamples ci cj k schedule) in Hpos, Hle, Heq.
  fold st in Hpos, Hle, Heq.
  split_and!.
  - by apply (invariant_progress o nsamples ci cj k).
  - lia.
  - intros Hdone.
    destruct Hinv as (Hcj & Hci & Hex & Hpc). rewrite Hdone in Hpc, Hcj.
    destruct Hpc as (_ & _ & Hr & _).
    assert (Handshake.exit_message st = None) as Hnone.
    { destruct (Handshake.exit_message st) as [e|] eqn:He; [|done].
      destruct (Hex e eq_refl) as [H|H].
      - rewrite Hci in H; [done | by rewrite Hr].
      - by rewrite Hcj in H. }
    rewrite (Heq Hnone). unfold Handshake.remaining.
    rewrite Hnone, Hdone, Hr. simpl. lia.
  - destruct (invariant_can_finish o nsamples ci cj k st Hinv Hpos) as [more Hmore].
    exists more. unfold Handshake.run. by rewrite foldl_app.
Qed.

Lemma handshake_terminates_witness :
  Z.of_nat (Handshake.moves Examples.machine 1 2 4 (Handshake.init 0)
              Schedules.round_robin) = 407.
Proof.
  destruct (handshake_terminates Examples.machine 1 2 4 0 Schedules.round_robin)
    as (_ & _ & Hdone & _).
  apply Hdone. vm_compute. reflexivity.
Defined.

(** X4. The result of a measurement does not depend on the interleaving:
    when the two threads have run to the end of [join], the controlling
    thread has read the clock [2 * nsamples] times and holds in [rtt] the
    least round trip of the samples, so the pair is recorded as [probe]
    records it; and when a thread has ended the process, it did so with the
    error of pinning one of the two cores, and [probe] fails as well. *)
Theorem handshake_result (o : os) (nsamples : Z) (cpus : list Z) (i j : Z)
    (pst : probe_state) (schedule : list Handshake.thread) :
  let st := Handshake.run o nsamples (cpus !!! Z.to_nat i) (cpus !!! Z.to_nat j)
              (ticks pst) schedule in
  Handshake.finished st →
  match Handshake.exit_message st with
  | None =>
      Handshake.rtt st = round_trip o (ticks pst) nsamples
      ∧ Handshake.calls st = (ticks pst + 2 * Z.to_nat nsamples)%nat
      ∧ probe o nsamples cpus i j pst
        = inr {| ticks := Handshake.calls st;
                 data := <[(j, i) := Z.quot (Z.quot (Handshake.rtt st) 2) 100]>
                           (<[(i, j) := Z.quot (Z.quot (Handshake.rtt st) 2) 100]>
                              (data pst)) |}
  | Some e =>
      (pinThread o (cpus !!! Z.to_nat i) = inl e
       ∨ pinThread o (cpus !!! Z.to_nat j) = inl e)
      ∧ ∃ e', probe o nsamples cpus i j pst = inl e'
  end.
Proof.
  intros st Hfin.
  pose proof (invariant_run o nsamples (cpus !!! Z.to_nat i) (cpus !!! Z.to_nat j)
                (ticks pst) schedule) as Hinv.
  fold st in Hinv. destruct Hinv as (Hcj & Hci & Hex & Hpc).
  destruct (Handshake.exit_message st) as [e|] eqn:He.
  - destruct (Hex e eq_refl) as [H|H].
    + split; [by left|]. unfold probe. rewrite H. eauto.
    + split; [by right|]. unfold probe. rewrite H.
      destruct (pinThread o (cpus !!! Z.to_nat i)); eauto.
  - destruct Hfin as [Hdone|[? ?]]; [|congruence].
    rewrite Hdone in Hpc, Hcj. destruct Hpc as (_ & _ & Hr & Hcalls & Hrtt).
    split_and!; [done..|].
    unfold probe. rewrite Hci by (by rewrite Hr). rewrite Hcj by done.
    by rewrite sample_loop_rtt, Hcalls, Hrtt.
Qed.

Lemma handshake_result_witness :
  ∃ st,
    st = Handshake.run Examples.machine 1 2 4 0 Schedules.round_robin
    ∧ Handshake.ctl st = Handshake.c_done
    ∧ Handshake.rtt st = 700
    ∧ probe Examples.machine 1 [2; 4; 7] 0 1 {| ticks := 0; data := ∅ |}
      = inr {| ticks := Handshake.calls st;
               data := <[(1, 0) := 3]> (<[(0, 1) := 3]> ∅) |}.
Proof.
  pose proof (handshake_result Examples.machine 1 [2; 4; 7] 0 1
                {| ticks := 0; data := ∅ |} Schedules.round_robin) as Hres.
  cbv zeta in Hres.
  set (st := Handshake.run _ _ _ _ _ _) in Hres.
  assert (Handshake.ctl st = Handshake.c_done) as Hdone by (vm_compute; reflexivity).
  assert (Handshake.exit_message st = None) as Hnone by (vm_compute; reflexivity).
  assert (Handshake.rtt st = 700) as Hval by (vm_compute; reflexivity).
  specialize (Hres (or_introl Hdone)). rewrite Hnone in Hres.
  destruct Hres as (_ & _ & Hprobe).
  exists st. split_and!; [reflexivity | exact Hdone | exact Hval |].
  rewrite Hprobe, Hval. reflexivity.
Defined.

(** ** The pairs the loops visit *)

Section Pairs.

(** The pairs the loops visit from the outer position [a] on. *)
Lemma pairs_from_length (n : Z) (fuel : nat) (a : Z) :
  0 ≤ a → Z.of_nat fuel = n - a →
  2 * Z.of_nat (length (seqZ a (n - a) ≫= λ i, (λ j, (i, j)) <$> seqZ (i + 1) (n - (i + 1))))
  = (n - a) * (n - a - 1).
Proof.
  revert a. induction fuel as [|fuel IH]; intros a Ha Hfuel.
  - rewrite seqZ_nil by lia. simpl. lia.
  - rewrite seqZ_cons by lia. rewrite bind_cons, length_app, length_fmap, length_seqZ.
    replace (Z.pred (n - a)) with (n - Z.succ a) by lia.
    rewrite Nat2Z.inj_add, Z.mul_add_distr_l, (IH (Z.succ a)) by lia. lia.
Qed.

Lemma length_pairs (n : Z) : 0 ≤ n → 2 * Z.of_nat (length (pairs n)) = n * (n - 1).
Proof.
  intros Hn. unfold pairs.
  pose proof (pairs_from_length n (Z.to_nat n) 0) as H.
  rewrite Z.sub_0_r in H. rewrite H by lia. lia.
Qed.

Lemma pairs_sorted_from (n : Z) (fuel : nat) (a : Z) :
  Z.of_nat fuel = n - a →
  StronglySorted lexical
    (seqZ a (n - a) ≫= λ i, (λ j, (i, j)) <$> seqZ (i + 1) (n - (i + 1))).
Proof.
  revert a. induction fuel as [|fuel IH]; intros a Hfuel.
  - rewrite seqZ_nil by lia. constructor.
  - rewrite seqZ_cons by lia. rewrite bind_cons.
    replace (Z.pred (n - a)) with (n - Z.succ a) by lia.
    assert (∀ l : list Z, StronglySorted Z.lt l →
              ∀ rest, StronglySorted lexical rest →
                (∀ p, p ∈ rest → a < p.1) →
                StronglySorted lexical (((λ j, (a, j)) <$> l) ++ rest)) as Happ.
    { induction 1 as [|j l Hl IHl Hall]; intros rest Hrest Hlt; [done|].
      rewrite fmap_cons. simpl. constructor; [by apply IHl|].
      apply Forall_app. split.
      - apply Forall_fmap, (Forall_impl _ _ _ Hall). intros j' Hj. by right.
      - apply Forall_forall. intros p Hp. left. by apply Hlt. }
    apply Happ; [apply seqZ_sorted | apply IH; lia |].
    intros [i j] (i' & (j' & [= -> ->] & _)%list_elem_of_fmap & Hi%elem_of_seqZ)%list_elem_of_bind.
    simpl. lia.
Qed.

Lemma pairs_sorted (n : Z) : StronglySorted lexical (pairs n).
Proof.
  unfold pairs. destruct (decide (0 ≤ n)) as [Hn|Hn].
  - pose proof (pairs_sorted_from n (Z.to_nat n) 0) as H.
    rewrite Z.sub_0_r in H. apply H. lia.
  - rewrite seqZ_nil by lia. constructor.
Qed.

End Pairs.

Section MatrixSize.

Context (o : os) (nsamples : Z) (cpus : list Z).

Local Abbreviation n := (Z.of_nat (length cpus)).

Lemma NoDup_pairs_mirrored : NoDup (pairs n ++ (prod_swap <$> pairs n)).
Proof.
  apply NoDup_app. split_and!.
  - apply NoDup_pairs.
  - intros [a b] Hp%elem_of_pairs ([i j] & [= -> ->] & Hq%elem_of_pairs)%list_elem_of_fmap.
    lia.
  - apply NoDup_fmap_2; [|apply NoDup_pairs]. by intros [??] [??] [= -> ->].
Qed.

Lemma measure_dom (st : probe_state) :
  measure o nsamples cpus = inr st →
  dom (data st) = list_to_set (pairs n ++ (prod_swap <$> pairs n)).
Proof.
  intros Hrun. apply set_eq. intros [a b].
  rewrite elem_of_dom, (measure_keys o nsamples cpus st a b Hrun).
  rewrite elem_of_list_to_set, elem_of_app, list_elem_of_fmap, elem_of_pairs.
  split.
  - intros (Ha & Hb & Hab). destruct (decide (a < b)); [left; lia|].
    right. exists (b, a). split; [done|]. apply elem_of_pairs. lia.
  - intros [H|([i j] & [= -> ->] & H%elem_of_pairs)]; lia.
Qed.

Lemma measure_size (st : probe_state) :
  measure o nsamples cpus = inr st →
  Z.of_nat (size (data st)) = n * (n - 1).
Proof.
  intros Hrun. rewrite <- size_dom, (measure_dom st Hrun).
  rewrite size_list_to_set by apply NoDup_pairs_mirrored.
  rewrite length_app, length_fmap.
  pose proof (length_pairs n ltac:(lia)). lia.
Qed.

Lemma measure_ticks (st : probe_state) :
  measure o nsamples cpus = inr st →
  Z.of_nat (ticks st) = Z.max nsamples 0 * (n * (n - 1)).
Proof.
  rewrite measure_pairs. intros Hrun%for_each_ticks. rewrite Hrun. simpl.
  pose proof (length_pairs n ltac:(lia)). nia.
Qed.

End MatrixSize.

(** X5. The two loops visit every pair of positions [i < j] of the
    enumerated list exactly once, in ascending lexical order: with [n]
    enumerated cores they measure [n (n - 1) / 2] pairs, leave [n (n - 1)]
    entries in the matrix and read the clock [nsamples * n * (n - 1)]
    times. *)
Theorem measure_visits_each_pair_once (o : os) (nsamples : Z) (cpus : list Z)
    (st : probe_state) :
  measure o nsamples cpus = inr st →
  measure o nsamples cpus
    = for_each (probe_pair o nsamples cpus) (pairs (Z.of_nat (length cpus)))
        {| ticks := 0; data := ∅ |}
  ∧ NoDup (pairs (Z.of_nat (length cpus)))
  ∧ StronglySorted lexical (pairs (Z.of_nat (length cpus)))
  ∧ (∀ i j, (i, j) ∈ pairs (Z.of_nat (length cpus))
            ↔ 0 ≤ i ∧ i < j < Z.of_nat (length cpus))
  ∧ 2 * Z.of_nat (length (pairs (Z.of_nat (length cpus))))
    = Z.of_nat (length cpus) * (Z.of_nat (length cpus) - 1)
  ∧ Z.of_nat (size (data st)) = Z.of_nat (length cpus) * (Z.of_nat (length cpus) - 1)
  ∧ Z.of_nat (ticks st)
    = Z.max nsamples 0 * (Z.of_nat (length cpus) * (Z.of_nat (length cpus) - 1)).
Proof.
  intros Hrun. split_and!.
  - apply measure_pairs.
  - apply NoDup_pairs.
  - apply pairs_sorted.
  - intros i j. apply elem_of_pairs.
  - apply length_pairs. lia.
  - by apply (measure_size o nsamples).
  - by apply (measure_ticks o nsamples).
Qed.

Lemma measure_visits_each_pair_once_witness :
  ∃ st, measure Examples.machine 2 [2; 4; 7] = inr st
        ∧ pairs 3 = [(0, 1); (0, 2); (1, 2)]
        ∧ Z.of_nat (size (data st)) = 6
        ∧ Z.of_nat (ticks st) = 12.
Proof.
  assert (∃ st, measure Examples.machine 2 [2; 4; 7] = inr st) as [st Hst]
    by (eexists; vm_compute; reflexivity).
  exists st. split; [exact Hst|].
  destruct (measure_visits_each_pair_once Examples.machine 2 [2; 4; 7] st Hst)
    as (_ & _ & _ & _ & _ & Hsize & Hticks).
  split_and!; [reflexivity | exact Hsize | exact Hticks].
Defined.

(** ** Edge cases of the measurement *)

Section MeasureEdges.

Context (o : os) (nsamples : Z) (cpus : list Z).

Local Abbreviation n := (Z.of_nat (length cpus)).

Lemma measure_few_cores :
  (length cpus ≤ 1)%nat →
  measure o nsamples cpus = inr {| ticks := 0; data := ∅ |}.
Proof.
  intros Hlen. rewrite measure_pairs.
  destruct cpus as [|c [|c' l]]; [reflexivity | reflexivity | simpl in Hlen; lia].
Qed.

Lemma for_each_failed (ps : list (Z * Z)) (st : probe_state) (e : string) :
  for_each (probe_pair o nsamples cpus) ps st = inl e →
  ∃ p, p ∈ ps
       ∧ (pinThread o (cpus !!! Z.to_nat p.1) = inl e
          ∨ pinThread o (cpus !!! Z.to_nat p.2) = inl e).
Proof.
  revert st. induction ps as [|p ps IH]; intros st; simpl; [done|].
  destruct (probe_pair o nsamples cpus p st) as [e'|st1] eqn:Hp.
  - intros [= ->]. exists p. split; [apply list_elem_of_here|].
    unfold probe_pair, probe in Hp.
    destruct (pinThread o (cpus !!! Z.to_nat p.1)) as [e1|[]]; [left; congruence|].
    destruct (pinThread o (cpus !!! Z.to_nat p.2)) as [e2|[]]; [right; congruence|].
    by destruct (foldl _ _ _).
  - intros (q & Hq & H)%IH. exists q. split; [by apply list_elem_of_further | done].
Qed.

Lemma pinThread_failed (c : Z) (e : string) :
  pinThread o c = inl e →
  ∃ err, sched_setaffinity o (CPU_SET c CPU_ZERO) = Some err
         ∧ e = perror "sched_setaffinity" err.
Proof.
  unfold pinThread. destruct (sched_setaffinity o _) as [err|]; [|done].
  intros [= <-]. eauto.
Qed.

(** A failed measurement failed to pin one of the enumerated cores. *)
Lemma measure_failed (e : string) :
  measure o nsamples cpus = inl e →
  ∃ c err, c ∈ cpus
           ∧ sched_setaffinity o (CPU_SET c CPU_ZERO) = Some err
           ∧ e = perror "sched_setaffinity" err.
Proof.
  rewrite measure_pairs. intros ([i j] & Hp%elem_of_pairs & Hpin)%for_each_failed.
  simpl in Hpin.
  destruct Hpin as [(err & H1 & H2)%pinThread_failed|(err & H1 & H2)%pinThread_failed].
  - exists (cpus !!! Z.to_nat i), err. split; [|done].
    apply list_elem_of_lookup_total_2. lia.
  - exists (cpus !!! Z.to_nat j), err. split; [|done].
    apply list_elem_of_lookup_total_2. lia.
Qed.

(** With two cores or more every enumerated core is pinned. *)
Lemma measure_pins_every_core (st : probe_state) (c : Z) :
  measure o nsamples cpus = inr st →
  (2 ≤ length cpus)%nat → c ∈ cpus →
  sched_setaffinity o (CPU_SET c CPU_ZERO) = None.
Proof.
  intros Hrun Hlen (p & Hp)%list_elem_of_lookup_1.
  pose proof (lookup_lt_Some _ _ _ Hp) as Hlt.
  rewrite <- (list_lookup_total_correct _ _ _ Hp).
  destruct p as [|p].
  - destruct (measure_pinned o nsamples cpus st 0 1 Hrun) as [H _]; [lia|done].
  - destruct (measure_pinned o nsamples cpus st 0 (Z.of_nat (S p)) Hrun) as [_ H];
      [lia|]. by rewrite Nat2Z.id in H.
Qed.

End MeasureEdges.

(** X6. With fewer than two enumerated cores nothing is measured: no thread
    is pinned and the clock is not read, whatever the operating system would
    answer; the run exits with code 0. An empty range (the upper bound below
    the lower one) enumerates no core and the table is the header [ CPU]
    alone; with one core the table has the header and one row with the
    single cell 0. *)
Theorem run_with_few_cores (o : os) (args : list string) (opts : options)
    (set : cpu_set_t) :
  parse_args (POSIXLY_CORRECT o) args = parsed opts →
  sched_getaffinity o = inr set →
  (length (enumerate set (begin_core opts) (end_core opts)) ≤ 1)%nat →
  measure o (nsamples opts) (enumerate set (begin_core opts) (end_core opts))
    = inr {| ticks := 0; data := ∅ |}
  ∧ main o args
    = {| ended := exited 0;
         cout := if plot opts
                 then plot_wrapped
                        (table (enumerate set (begin_core opts) (end_core opts)) ∅)
                 else table (enumerate set (begin_core opts) (end_core opts)) ∅;
         cerr := EmptyString |}
  ∧ (end_core opts < begin_core opts →
     enumerate set (begin_core opts) (end_core opts) = [])
  ∧ table [] ∅ = " CPU" +:+ nl
  ∧ (∀ c, table [c] ∅
          = " CPU" +:+ " " +:+ setw 4 (show c) +:+ nl
            +:+ setw 4 (show c) +:+ " " +:+ "   0" +:+ nl).
Proof.
  intros Hparse Hset Hlen.
  pose proof (measure_few_cores o (nsamples opts) _ Hlen) as Hrun.
  split_and!.
  - exact Hrun.
  - by rewrite (main_measured o args opts set _ Hparse Hset Hrun).
  - intros Hlt. rewrite enumerate_filter, seqZ_nil by lia. done.
  - reflexivity.
  - intros c. unfold table, header_row, data_row, join, column.
    cbn [imap fmap list_fmap map foldr seq length compose].
    rewrite !append_assoc, !append_nil_r. reflexivity.
Qed.

Lemma run_with_few_cores_witness :
  main Examples.machine ["-b"; "9"; "-e"; "3"]
    = {| ended := exited 0; cout := " CPU" +:+ nl; cerr := EmptyString |}
  ∧ cout (main Examples.machine ["-b"; "3"; "-e"; "5"])
    = " CPU    4" +:+ nl +:+ "   4    0" +:+ nl.
Proof.
  split.
  - apply (run_with_few_cores Examples.machine ["-b"; "9"; "-e"; "3"]
             {| nsamples := 1000; begin_core := 9; end_core := 3; plot := false |}
             (cpu_set_of [2; 4; 7]));
      [vm_compute; reflexivity | reflexivity | vm_compute; lia].
  - rewrite (proj1 (proj2 (run_with_few_cores Examples.machine ["-b"; "3"; "-e"; "5"]
             {| nsamples := 1000; begin_core := 3; end_core := 5; plot := false |}
             (cpu_set_of [2; 4; 7])
             ltac:(vm_compute; reflexivity) eq_refl ltac:(vm_compute; lia)))).
    vm_compute. reflexivity.
Defined.

(** X7. The sample count is not checked: with [nsamples <= 0] the sampling
    loop does not run, the clock is not read, and every pair is recorded
    with [nanoseconds::max() / 2 / 100 = 46116860184273879]. *)
Theorem measure_without_samples (o : os) (nsamples : Z) (cpus : list Z)
    (st : probe_state) :
  measure o nsamples cpus = inr st →
  nsamples ≤ 0 →
  ticks st = 0%nat
  ∧ ∀ i j, 0 ≤ i < Z.of_nat (length cpus) → 0 ≤ j < Z.of_nat (length cpus) →
           i ≠ j → data st !! (i, j) = Some 46116860184273879.
Proof.
  intros Hrun Hn. split.
  - pose proof (measure_ticks o nsamples cpus st Hrun) as H. nia.
  - assert (∀ k, one_way (round_trip o k nsamples) = 46116860184273879) as Hval.
    { intros k. by rewrite round_trip_nonpos. }
    intros i j Hi Hj Hne. destruct (decide (i < j)).
    + destruct (measure_recorded o nsamples cpus st i j Hrun)
        as (before & _ & _ & H & _); [lia|]. by rewrite H, Hval.
    + destruct (measure_recorded o nsamples cpus st j i Hrun)
        as (before & _ & _ & _ & H); [lia|]. by rewrite H, Hval.
Qed.

Lemma measure_without_samples_witness :
  ∃ st, measure Examples.machine 0 [2; 4; 7] = inr st
        ∧ ticks st = 0%nat
        ∧ data st !! (0, 2) = Some 46116860184273879.
Proof.
  assert (∃ st, measure Examples.machine 0 [2; 4; 7] = inr st) as [st Hst]
    by (eexists; vm_compute; reflexivity).
  exists st. split; [exact Hst|].
  destruct (measure_without_samples Examples.machine 0 [2; 4; 7] st Hst ltac:(lia))
    as [Hticks Hdata].
  split; [exact Hticks|]. apply Hdata; simpl; lia.
Defined.

(** X8. When exactly one of two or more enumerated cores cannot be pinned,
    the run ends in [pinThread], in the thread that comes to this core
    first: it exits with code 1, nothing is printed on the output, and the
    error stream holds [sched_setaffinity: ] and the error of the operating
    system for this core. *)
Theorem run_with_unpinnable_core (o : os) (args : list string) (opts : options)
    (set : cpu_set_t) (c : Z) (err : string) :
  parse_args (POSIXLY_CORRECT o) args = parsed opts →
  sched_getaffinity o = inr set →
  (2 ≤ length (enumerate set (begin_core opts) (end_core opts)))%nat →
  c ∈ enumerate set (begin_core opts) (end_core opts) →
  sched_setaffinity o (CPU_SET c CPU_ZERO) = Some err →
  (∀ c', c' ∈ enumerate set (begin_core opts) (end_core opts) → c' ≠ c →
         sched_setaffinity o (CPU_SET c' CPU_ZERO) = None) →
  main o args
  = {| ended := exited 1; cout := EmptyString;
       cerr := perror "sched_setaffinity" err |}.
Proof.
  intros Hparse Hset Hlen Hc Hpin Hothers.
  destruct (measure o (nsamples opts) (enumerate set (begin_core opts) (end_core opts)))
    as [e|st] eqn:Hrun.
  - rewrite (main_pinning_failed o args opts set e Hparse Hset Hrun).
    destruct (measure_failed _ _ _ _ Hrun) as (c' & err' & Hc' & Hpin' & ->).
    destruct (decide (c' = c)) as [->|Hne].
    + rewrite Hpin in Hpin'. by injection Hpin' as <-.
    + rewrite (Hothers c' Hc' Hne) in Hpin'. done.
  - rewrite (measure_pins_every_core _ _ _ st c Hrun Hlen Hc) in Hpin. done.
Qed.

Lemma run_with_unpinnable_core_witness :
  main MoreExamples.machine_without_core_4 []
  = {| ended := exited 1; cout := EmptyString;
       cerr := perror "sched_setaffinity" "Invalid argument" |}.
Proof.
  assert (enumerate (cpu_set_of [2; 4; 7]) (begin_core default_options)
            (end_core default_options) = [2; 4; 7]) as Hcpus
    by (vm_compute; reflexivity).
  apply (run_with_unpinnable_core MoreExamples.machine_without_core_4 []
           default_options (cpu_set_of [2; 4; 7]) 4 "Invalid argument").
  - reflexivity.
  - reflexivity.
  - rewrite Hcpus. simpl. lia.
  - rewrite Hcpus. apply list_elem_of_further, list_elem_of_here.
  - reflexivity.
  - intros c'. rewrite Hcpus, !elem_of_cons, elem_of_nil.
    intros [->|[->|[->|[]]]] Hne; [reflexivity | done | reflexivity].
Defined.

(** ** The plot flag *)

Section PlotFlag.

Lemma getopt_p (posix : bool) (args : list string) :
  getopt posix optstring ("-p" :: args)
  = (opt "p" EmptyString :: (getopt posix optstring args).1,
     (getopt posix optstring args).2).
Proof.
  unfold getopt. rewrite getopt_all_cons. case_decide; [done|].
  change (option_characters "-p") with (Some "p").
  change (cluster optstring "p") with ([opt "p"%char EmptyString], @None ascii).
  reflexivity.
Qed.

Lemma handle_opt_with_plot (o : options) (r : getopt_result) :
  handle_opt (with_plot o) r
  = match handle_opt o r with
    | parsed o' => parsed (with_plot o')
    | stop => stop
    end.
Proof.
  destruct r as [c optarg|]; [|done]. rewrite !handle_opt_opt.
  repeat case_decide; try destruct (stoi optarg); done.
Qed.

Lemma option_loop_with_plot (o : options) (rs : list getopt_result) :
  option_loop (with_plot o) rs
  = match option_loop o rs with
    | parsed o' => parsed (with_plot o')
    | stop => stop
    end.
Proof.
  revert o. induction rs as [|r rs IH]; intros o; simpl; [done|].
  rewrite handle_opt_with_plot. destruct (handle_opt o r); [apply IH | done..].
Qed.

Lemma parse_args_p (posix : bool) (args : list string) :
  parse_args posix ("-p" :: args)
  = match parse_args posix args with
    | parsed opts => parsed (with_plot opts)
    | stop => stop
    end.
Proof.
  rewrite !parse_args_eq, getopt_p. cbn [fst snd option_loop].
  change (handle_opt default_options (opt "p" EmptyString))
    with (parsed (with_plot default_options)).
  cbv iota. rewrite option_loop_with_plot.
  destruct (option_loop default_options _); [|done..].
  by destruct (getopt posix optstring args).2.
Qed.

End PlotFlag.

(** X10. The flag [-p] changes nothing but the output: with [-p] before the
    other arguments the command line is accepted, rejected or thrown on as
    without it, the run ends the same way with the same error stream, and
    what a run that exits with code 0 prints is what it prints without the
    flag, between the gnuplot header and the gnuplot footer; on a command
    line that has the flag already a second one changes nothing. *)
Theorem plot_flag_wraps_output (o : os) (args : list string) :
  parse_args (POSIXLY_CORRECT o) ("-p" :: args)
  = match parse_args (POSIXLY_CORRECT o) args with
    | parsed opts => parsed (with_plot opts)
    | stop => stop
    end
  ∧ ended (main o ("-p" :: args)) = ended (main o args)
  ∧ cerr (main o ("-p" :: args)) = cerr (main o args)
  ∧ (∀ opts, parse_args (POSIXLY_CORRECT o) args = parsed opts →
             plot opts = false →
             ended (main o args) = exited 0 →
             cout (main o ("-p" :: args)) = plot_wrapped (cout (main o args)))
  ∧ (∀ opts, parse_args (POSIXLY_CORRECT o) args = parsed opts →
             plot opts = true →
             main o ("-p" :: args) = main o args).
Proof.
  pose proof (parse_args_p (POSIXLY_CORRECT o) args) as Hp.
  split; [exact Hp|].
  destruct (parse_args (POSIXLY_CORRECT o) args) as [opts| |e] eqn:Hparse.
  - destruct (sched_getaffinity o) as [err|set] eqn:Hset.
    { rewrite (main_affinity_failed o _ _ err Hp Hset),
        (main_affinity_failed o _ _ err Hparse Hset).
      split_and!; done. }
    destruct (measure o (nsamples opts)
                (enumerate set (begin_core opts) (end_core opts)))
      as [e|st] eqn:Hrun.
    { rewrite (main_pinning_failed o _ (with_plot opts) set e Hp Hset Hrun),
        (main_pinning_failed o _ opts set e Hparse Hset Hrun).
      split_and!; done. }
    rewrite (main_measured o _ (with_plot opts) set st Hp Hset Hrun),
      (main_measured o _ opts set st Hparse Hset Hrun).
    cbn [ended cerr cout with_plot plot nsamples begin_core end_core].
    split_and!; try done.
    + intros opts' [= <-] -> _. reflexivity.
    + intros opts' [= <-] ->. reflexivity.
  - rewrite (main_usage o _ Hp), (main_usage o args Hparse). split_and!; done.
  - rewrite (main_thrown o _ e Hp), (main_thrown o args e Hparse).
    split_and!; done.
Qed.

Lemma plot_flag_wraps_output_witness :
  cout (main Examples.machine ["-p"; "-s"; "2"])
  = plot_wrapped (cout (main Examples.machine ["-s"; "2"])).
Proof.
  destruct (plot_flag_wraps_output Examples.machine ["-s"; "2"])
    as (_ & _ & _ & Hwrap & _).
  apply (Hwrap {| nsamples := 2; begin_core := 0; end_core := CPU_SETSIZE;
                  plot := false |}).
  - vm_compute. reflexivity.
  - reflexivity.
  - vm_compute. reflexivity.
Defined.

(** ** The masks of [pinThread] *)

Section Masks.

Lemma CPU_ISSET_CPU_SET (c cpu : Z) :
  CPU_ISSET c (CPU_SET cpu CPU_ZERO) = true ↔ c = cpu ∧ 0 ≤ cpu < CPU_SETSIZE.
Proof.
  unfold CPU_ISSET, CPU_SET, CPU_ZERO.
  case_bool_decide as Hc; case_bool_decide as Hcpu; simpl.
  - rewrite Z.lor_0_l, Z.shiftl_1_l, Z.pow2_bits_eqb by lia.
    rewrite Z.eqb_eq. intuition lia.
  - rewrite Z.bits_0. intuition congruence.
  - split; [done|]. intros [-> ?]. done.
  - split; [done|]. intros [-> ?]. done.
Qed.

End Masks.

(** X11. The mask [pinThread] builds for an enumerated core holds that core
    and no other, and that core is permitted by the affinity mask of the
    process; two enumerated cores never give the same mask. For a core index
    outside [0 .. CPU_SETSIZE - 1] the mask would be empty, but no such
    index is enumerated. *)
Theorem pins_single_permitted_core (set : cpu_set_t) (begin_core end_core c : Z) :
  c ∈ enumerate set begin_core end_core →
  (∀ c', CPU_ISSET c' (CPU_SET c CPU_ZERO) = true ↔ c' = c)
  ∧ (∀ c', CPU_ISSET c' (CPU_SET c CPU_ZERO) = true → CPU_ISSET c' set = true)
  ∧ (∀ c', c' ∈ enumerate set begin_core end_core →
           CPU_SET c' CPU_ZERO = CPU_SET c CPU_ZERO → c' = c)
  ∧ (∀ cpu, ¬ 0 ≤ cpu < CPU_SETSIZE →
            CPU_SET cpu CPU_ZERO = CPU_ZERO
            ∧ cpu ∉ enumerate set begin_core end_core).
Proof.
  intros [Hset Hrange]%elem_of_enumerate.
  assert (0 ≤ c < CPU_SETSIZE) as Hc.
  { unfold CPU_ISSET in Hset.
    by apply andb_prop in Hset as [Hc%bool_decide_eq_true _]. }
  split_and!.
  - intros c'. rewrite CPU_ISSET_CPU_SET. tauto.
  - intros c' [-> _]%CPU_ISSET_CPU_SET. done.
  - intros c' _ Heq.
    assert (CPU_ISSET c (CPU_SET c' CPU_ZERO) = true) as H.
    { rewrite Heq. by apply CPU_ISSET_CPU_SET. }
    apply CPU_ISSET_CPU_SET in H as [-> _]. done.
  - intros cpu Hcpu. split.
    + unfold CPU_SET. by rewrite bool_decide_eq_false_2.
    + intros [H _]%elem_of_enumerate. unfold CPU_ISSET in H.
      apply andb_prop in H as [H%bool_decide_eq_true _]. done.
Qed.

Lemma pins_single_permitted_core_witness :
  CPU_ISSET 4 (CPU_SET 4 CPU_ZERO) = true
  ∧ CPU_ISSET 7 (CPU_SET 4 CPU_ZERO) = false.
Proof.
  assert (4 ∈ enumerate (cpu_set_of [2; 4; 7]) 0 10) as Hin.
  { apply elem_of_enumerate. vm_compute. split; [reflexivity|]. split; discriminate. }
  destruct (pins_single_permitted_core (cpu_set_of [2; 4; 7]) 0 10 4 Hin)
    as (Hmask & _).
  split.
  - by apply Hmask.
  - destruct (CPU_ISSET 7 (CPU_SET 4 CPU_ZERO)) eqn:H; [|reflexivity].
    apply Hmask in H. discriminate.
Defined.

(** ** More samples *)

Section MoreSamples.

Lemma round_trip_antitone (o : os) (k : nat) (nsamples nsamples' : Z) :
  nsamples ≤ nsamples' →
  round_trip o k nsamples' ≤ round_trip o k nsamples ≤ nanoseconds_max.
Proof.
  intros Hle. unfold round_trip, durations.
  replace (Z.to_nat nsamples')
    with (Z.to_nat nsamples + (Z.to_nat nsamples' - Z.to_nat nsamples))%nat by lia.
  rewrite seq_app, fmap_app, foldl_app. split.
  - apply (proj1 (foldl_min_le _ _)).
  - apply (proj1 (foldl_min_le _ _)).
Qed.

Lemma one_way_mono (r r' : Z) : r ≤ r' → one_way r ≤ one_way r'.
Proof.
  intros H. unfold one_way.
  apply Z.quot_le_mono; [lia|]. apply Z.quot_le_mono; [lia | done].
Qed.

End MoreSamples.

(** X12. Taking more samples never raises what is recorded: from the same
    reading of the clock on, the latency [probe] stores for a pair with
    [nsamples'] samples is at most the one it stores with
    [nsamples <= nsamples'], and none is above
    [nanoseconds::max() / 2 / 100]. *)
Theorem more_samples_never_raise_latency (o : os) (nsamples nsamples' : Z)
    (cpus : list Z) (i j : Z) (st st1 st2 : probe_state) :
  probe o nsamples cpus i j st = inr st1 →
  probe o nsamples' cpus i j st = inr st2 →
  nsamples ≤ nsamples' →
  ∃ v1 v2,
    data st1 !! (i, j) = Some v1 ∧ data st1 !! (j, i) = Some v1
    ∧ data st2 !! (i, j) = Some v2 ∧ data st2 !! (j, i) = Some v2
    ∧ v2 ≤ v1 ≤ 46116860184273879.
Proof.
  intros -> %probe_inr -> %probe_inr Hle.
  exists (one_way (round_trip o (ticks st) nsamples)),
    (one_way (round_trip o (ticks st) nsamples')).
  destruct (round_trip_antitone o (ticks st) nsamples nsamples' Hle) as [H1 H2].
  cbn [data].
  assert (∀ v (d : matrix), <[(j, i) := v]> (<[(i, j) := v]> d) !! (i, j) = Some v)
    as Hij.
  { intros v d. destruct (decide ((j, i) = (i, j))) as [Heq|Hne].
    - rewrite Heq. apply lookup_insert_eq.
    - rewrite lookup_insert_ne by done. apply lookup_insert_eq. }
  rewrite !Hij, !lookup_insert_eq. split_and!; [done..| |].
  - by apply one_way_mono.
  - change 46116860184273879 with (one_way nanoseconds_max). by apply one_way_mono.
Qed.

Lemma more_samples_never_raise_latency_witness :
  ∃ st1 st2 v1 v2,
    probe Examples.machine 1 [2; 4; 7] 0 1 {| ticks := 4095; data := ∅ |} = inr st1
    ∧ probe Examples.machine 3 [2; 4; 7] 0 1 {| ticks := 4095; data := ∅ |} = inr st2
    ∧ data st1 !! (0, 1) = Some v1 ∧ data st2 !! (0, 1) = Some v2 ∧ v2 ≤ v1.
Proof.
  assert (∃ st, probe Examples.machine 1 [2; 4; 7] 0 1 {| ticks := 4095; data := ∅ |}
                = inr st) as [st1 H1] by (eexists; vm_compute; reflexivity).
  assert (∃ st, probe Examples.machine 3 [2; 4; 7] 0 1 {| ticks := 4095; data := ∅ |}
                = inr st) as [st2 H2] by (eexists; vm_compute; reflexivity).
  destruct (more_samples_never_raise_latency Examples.machine 1 3 [2; 4; 7] 0 1
              _ st1 st2 H1 H2 ltac:(lia)) as (v1 & v2 & Hv1 & _ & Hv2 & _ & Hle & _).
  exists st1, st2, v1, v2. split_and!; [exact H1 | exact H2 | exact Hv1 | exact Hv2 | exact Hle].
Defined.

(** ** The values of the options *)

Section OptionValues.

Implicit Types (o : options) (r : getopt_result) (rs : list getopt_result).

Lemma stoi_range (s : string) (v : Z) : stoi s = inr v → INT_MIN ≤ v ≤ INT_MAX.
Proof.
  unfold stoi.
  match goal with
  | |- context [let '(_, _) := ?p in _] => destruct p as [neg s1]
  end.
  destruct (digits None s1) as [d|]; [|done].
  destruct (_ && _) eqn:Hfit; [|done]. intros [= <-].
  apply andb_prop in Hfit as [?%Z.leb_le ?%Z.leb_le]. done.
Qed.

Lemma handle_opt_fits_int o r o' :
  handle_opt o r = parsed o' → fits_int o → fits_int o'.
Proof.
  destruct r as [c optarg|]; [|done]. rewrite handle_opt_opt. unfold fits_int.
  repeat case_decide; try (destruct (stoi optarg) as [|v] eqn:Hv; [done|]);
    try done; intros [= <-]; simpl; try done;
    apply stoi_range in Hv; unfold INT_MIN, INT_MAX, CPU_SETSIZE in *; lia.
Qed.

Lemma option_loop_fits_int o rs o' :
  option_loop o rs = parsed o' → fits_int o → fits_int o'.
Proof.
  revert o. induction rs as [|r rs IH]; intros o; simpl.
  - by intros [= <-].
  - destruct (handle_opt o r) as [o1| |] eqn:Hr; [|done..].
    intros Hrest Ho. apply (IH o1 Hrest). by apply (handle_opt_fits_int o r).
Qed.

Lemma option_loop_last_s o before optarg after o' :
  option_loop o (before ++ opt "s" optarg :: after) = parsed o' →
  (∀ a, opt "s" a ∉ after) →
  stoi optarg = inr (nsamples o').
Proof.
  rewrite option_loop_app.
  destruct (option_loop o before) as [o1| |]; [|done..]. simpl.
  destruct (stoi optarg) as [|v]; [done|].
  intros (Hs & _)%option_loop_unset Hafter. by rewrite Hs.
Qed.

Lemma option_loop_plot o rs o' :
  option_loop o rs = parsed o' →
  plot o' = true ↔ plot o = true ∨ ∃ a, opt "p" a ∈ rs.
Proof.
  revert o. induction rs as [|r rs IH]; intros o; simpl.
  - intros [= <-]. split; [by left|]. intros [?|[a Ha%elem_of_nil]]; done.
  - destruct (handle_opt o r) as [o1| |] eqn:Hr; [|done..].
    intros ->%IH. destruct r as [c optarg|]; [|done].
    rewrite handle_opt_opt in Hr. case_decide as Hc.
    + subst c. injection Hr as <-. simpl. split; [|by left].
      intros _. right. exists optarg. apply list_elem_of_here.
    + assert (plot o1 = plot o) as ->.
      { repeat case_decide; try destruct (stoi optarg); try done;
          by injection Hr as <-. }
      split; (intros [?|[a Ha]]; [by left|right; exists a]).
      * by apply list_elem_of_further.
      * apply elem_of_cons in Ha as [[= ? ?]|Ha]; [congruence | done].
Qed.

End OptionValues.

(** X13. On an accepted command line the sample count is the value of the
    last [-s], as [std::stoi] reads it and not checked further (it may be
    zero or negative); the plot mode is on exactly when [-p] occurs; and the
    three numbers are values of an [int], the lower bound between 0 and
    [INT_MAX] and the upper bound at most [CPU_SETSIZE], so that the counter of
    the enumeration loop, which ends at [end_core + 1], does not overflow. *)
Theorem accepted_option_values (posix : bool) (args : list string) (opts : options) :
  parse_args posix args = parsed opts →
  (∀ before optarg after,
     (getopt posix optstring args).1 = before ++ opt "s" optarg :: after →
     (∀ a, opt "s" a ∉ after) →
     stoi optarg = inr (nsamples opts))
  ∧ (plot opts = true ↔ ∃ a, opt "p" a ∈ (getopt posix optstring args).1)
  ∧ INT_MIN ≤ nsamples opts ≤ INT_MAX
  ∧ 0 ≤ begin_core opts ≤ INT_MAX
  ∧ INT_MIN ≤ end_core opts ≤ CPU_SETSIZE
  ∧ (∀ i, i ∈ seqZ (begin_core opts) (end_core opts - begin_core opts + 1) →
          0 ≤ i ∧ i + 1 ≤ INT_MAX).
Proof.
  intros Hparse%parse_args_parsed.
  destruct (option_loop_fits_int _ _ _ Hparse) as (Hs & Hb & He).
  { unfold fits_int. vm_compute. intuition discriminate. }
  split_and!; try lia.
  - intros before optarg after Hrs. rewrite Hrs in Hparse.
    apply (option_loop_last_s _ _ _ _ _ Hparse).
  - rewrite (option_loop_plot _ _ _ Hparse). simpl. intuition discriminate.
  - intros i Hi%elem_of_seqZ. unfold INT_MAX, CPU_SETSIZE in *. lia.
Qed.

Lemma accepted_option_values_witness :
  parse_args false ["-s"; "7"; "-p"; "-s"; "-5"]
    = parsed {| nsamples := -5; begin_core := 0; end_core := CPU_SETSIZE;
                plot := true |}
  ∧ stoi "-5" = inr (-5).
Proof.
  assert (parse_args false ["-s"; "7"; "-p"; "-s"; "-5"]
          = parsed {| nsamples := -5; begin_core := 0; end_core := CPU_SETSIZE;
                      plot := true |}) as Hparse by (vm_compute; reflexivity).
  split; [exact Hparse|].
  destruct (accepted_option_values false _ _ Hparse) as (Hlast & _).
  apply (Hlast [opt "s" "7"; opt "p" EmptyString] "-5" []).
  - vm_compute. reflexivity.
  - intros a Ha%elem_of_nil. done.
Defined.

(** ** POSIXLY_CORRECT *)

Section Posix.

Lemma getopt_all_no_rest (p1 p2 : bool) (pending : option ascii) (args : list string) :
  (getopt_all p1 optstring pending args).2 = false →
  getopt_all p2 optstring pending args = getopt_all p1 optstring pending args.
Proof.
  revert pending. induction args as [|a args IH]; intros pending; [done|].
  rewrite !getopt_all_cons. destruct pending as [c|].
  - simpl. intros Hrest. by rewrite (IH None Hrest).
  - case_decide; [done|]. destruct (option_characters a) as [s|].
    + simpl. intros Hrest. by rewrite (IH _ Hrest).
    + by destruct p1.
Qed.

(** Under POSIXLY_CORRECT [getopt] returns a prefix of what it returns
    without it, and leaves arguments behind in the same cases. *)
Lemma getopt_all_modes (pending : option ascii) (args : list string) :
  (getopt_all true optstring pending args).2
  = (getopt_all false optstring pending args).2
  ∧ ∃ later,
      (getopt_all false optstring pending args).1
      = (getopt_all true optstring pending args).1 ++ later
      ∧ ((getopt_all true optstring pending args).2 = false → later = []).
Proof.
  revert pending. induction args as [|a args IH]; intros pending.
  - split; [done|]. exists []. by rewrite app_nil_r.
  - rewrite !getopt_all_cons. destruct pending as [c|].
    + destruct (IH None) as (Hrest & later & Hrs & Hnil). simpl.
      split; [done|]. exists later. by rewrite Hrs.
    + case_decide.
      * split; [done|]. exists []. by rewrite app_nil_r.
      * destruct (option_characters a) as [s|].
        -- destruct (IH (cluster optstring s).2) as (Hrest & later & Hrs & Hnil).
           simpl. split; [done|]. exists later. by rewrite Hrs, app_assoc.
        -- simpl. split; [done|].
           exists (getopt_all false optstring None args).1. done.
Qed.

(** The two modes give the same result of the option loop, or the usage
    text under POSIXLY_CORRECT and an exception without it, and this only
    when arguments are left behind. *)
Lemma parse_args_modes (args : list string) :
  parse_args true args = parse_args false args
  ∨ ((getopt true optstring args).2 = true
     ∧ parse_args true args = usage
     ∧ ∃ e, parse_args false args = thrown e).
Proof.
  rewrite !parse_args_eq. unfold getopt.
  destruct (getopt_all_modes None args) as (Hrest & later & Hrs & Hnil).
  rewrite Hrs, <- Hrest, option_loop_app.
  destruct (getopt_all true optstring None args) as [rs rest]. simpl in *.
  destruct (option_loop default_options rs) as [o1| |e]; [|by left..].
  destruct rest.
  - destruct (option_loop o1 later) as [o2| |e]; [by left | by left |].
    right. eauto.
  - rewrite (Hnil eq_refl). by left.
Qed.

Lemma main_modes_agree (o : os) (args : list string) :
  parse_args true args = parse_args false args →
  main (with_posixly_correct true o) args = main (with_posixly_correct false o) args.
Proof.
  intros Heq. unfold main.
  change (POSIXLY_CORRECT (with_posixly_correct true o)) with true.
  change (POSIXLY_CORRECT (with_posixly_correct false o)) with false.
  rewrite Heq. reflexivity.
Qed.

End Posix.

(** X14. The environment variable POSIXLY_CORRECT changes a run only when
    the command line has an argument that is left behind by [getopt], and
    then only in how it is refused. [getopt] leaves arguments behind in the
    same cases with and without it, and when it leaves none it returns the
    same options; so a command line is accepted with the same options, or
    refused with the usage text, or thrown on with the same exception in both
    modes, except that with arguments left behind the run may print the usage
    text under POSIXLY_CORRECT and be terminated by an exception of
    [std::stoi] without it: GNU [getopt] goes on to the options after the
    stray argument. [core -s many] is such a command line. *)
Theorem posixly_correct_changes_stray_refusals_only (args : list string) :
  (getopt true optstring args).2 = (getopt false optstring args).2
  ∧ ((getopt true optstring args).2 = false →
     getopt true optstring args = getopt false optstring args)
  ∧ (parse_args true args = parse_args false args
     ∨ ((getopt true optstring args).2 = true
        ∧ parse_args true args = usage
        ∧ ∃ e, parse_args false args = thrown e))
  ∧ (∀ o, main (with_posixly_correct true o) args
          = main (with_posixly_correct false o) args
          ∨ ((getopt true optstring args).2 = true
             ∧ main (with_posixly_correct true o) args = usage_run
             ∧ ∃ e, main (with_posixly_correct false o) args
                    = {| ended := terminated e; cout := EmptyString;
                         cerr := EmptyString |}))
  ∧ (∀ p1 p2 opts, parse_args p1 args = parsed opts → parse_args p2 args = parsed opts)
  ∧ parse_args true ["core"; "-s"; "many"] = usage
  ∧ parse_args false ["core"; "-s"; "many"] = thrown invalid_argument.
Proof.
  split_and!.
  - apply (getopt_all_modes None args).
  - intros Hrest. symmetry. by apply getopt_all_no_rest.
  - apply parse_args_modes.
  - intros o. destruct (parse_args_modes args) as [Heq|(Hrest & Ht & e & Hf)].
    + left. by apply main_modes_agree.
    + right. split; [exact Hrest|]. split.
      * apply main_usage. exact Ht.
      * exists e. apply main_thrown. exact Hf.
  - intros p1 p2 opts Hparse. rewrite parse_args_eq in Hparse. rewrite parse_args_eq.
    assert ((getopt p1 optstring args).2 = false) as Hrest.
    { destruct (option_loop default_options (getopt p1 optstring args).1); [|done..].
      by destruct (getopt p1 optstring args).2. }
    unfold getopt in *. by rewrite (getopt_all_no_rest p1 p2 None args Hrest).
  - vm_compute. reflexivity.
  - vm_compute. reflexivity.
Qed.

Lemma posixly_correct_changes_stray_refusals_only_witness :
  getopt true optstring ["-e"; "3"; "-p"] = getopt false optstring ["-e"; "3"; "-p"]
  ∧ parse_args true ["-e"; "3"; "-p"]
    = parsed {| nsamples := 1000; begin_core := 0; end_core := 3; plot := true |}.
Proof.
  destruct (posixly_correct_changes_stray_refusals_only ["-e"; "3"; "-p"])
    as (_ & Hsame & _ & _ & Haccepted & _).
  split.
  - apply Hsame. vm_compute. reflexivity.
  - apply (Haccepted false true). vm_compute. reflexivity.
Defined.
